(** * Wave Function Collapse demo: a shallow embedding and its properties

    The development follows [src/js/demos/WaveFunctionCollapse.js].  The
    class [WaveFunctionCollapse] keeps its whole solver state in fields of
    [this]; here the fields are a record that every method takes and returns.
    A JavaScript [TypeError] (reading a property of [undefined]) is the
    [Throw] outcome of a small error monad. *)

From Stdlib Require Import ZArith Lia Ascii.
From stdpp Require Import base option list list_numbers gmap strings pretty.

Local Open Scope Z_scope.
Set Warnings "-clear-no-such-hyp".

(** ** Outcomes of a method call *)

Inductive exn := TypeError | OutOfFuel.

Inductive result (A : Type) : Type :=
  | Ok (a : A)
  | Throw (e : exn).
Arguments Ok {A} a.
Arguments Throw {A} e.

#[global] Instance result_ret : MRet result := fun A a => Ok a.
#[global] Instance result_bind : MBind result := fun A B f m =>
  match m with
  | Ok a => f a
  | Throw e => Throw e
  end.

(** A [for] loop over an array whose body may throw. *)
Fixpoint foldlM {A B : Type} (f : A -> B -> result A) (a : A) (l : list B)
  : result A :=
  match l with
  | [] => Ok a
  | b :: l => a' ← f a b; foldlM f a' l
  end.

(** ** Values

    A tile is a one-character string.  An array read past the end yields
    [undefined], and a cell's [value] starts as [null], so both are values a
    cell can hold. *)

Inductive jsval := JUndefined | JNull | JStr (s : string).

#[global] Instance jsval_eq_dec : EqDecision jsval.
Proof. solve_decision. Defined.

(** Property keys are strings: [obj[v]] converts [v] first. *)
Definition to_key (v : jsval) : string :=
  match v with
  | JUndefined => "undefined"
  | JNull => "null"
  | JStr s => s
  end.

(** [arr[i]] for an integer [i]: [None] stands for [undefined]. *)
Definition lookupZ {A : Type} (l : list A) (i : Z) : option A :=
  if bool_decide (0 <= i) then l !! Z.to_nat i else None.

(** [this.tiles] as the constructor sets it. *)
Definition catalog : list jsval :=
  [JStr " "; JStr "║"; JStr "═"; JStr "╔"; JStr "╗"; JStr "╚"; JStr "╝";
   JStr "╠"; JStr "╣"; JStr "╦"; JStr "╩"; JStr "╬"].

(** ** buildConstraints *)

Inductive direction := DTop | DRight | DBottom | DLeft.

#[global] Instance direction_eq_dec : EqDecision direction.
Proof. solve_decision. Defined.

Definition opposite (d : direction) : direction :=
  match d with
  | DTop => DBottom
  | DRight => DLeft
  | DBottom => DTop
  | DLeft => DRight
  end.

(** The object [{ top: [], right: [], bottom: [], left: [] }]. *)
Record edges := mkEdges {
  top : list jsval;
  right : list jsval;
  bottom : list jsval;
  left : list jsval
}.

Definition empty_edges : edges := mkEdges [] [] [] [].

(** [e[dir]] *)
Definition get_dir (e : edges) (d : direction) : list jsval :=
  match d with
  | DTop => top e
  | DRight => right e
  | DBottom => bottom e
  | DLeft => left e
  end.

(** [e[dir].push(v)] *)
Definition push_dir (d : direction) (v : jsval) (e : edges) : edges :=
  match d with
  | DTop => mkEdges (top e ++ [v]) (right e) (bottom e) (left e)
  | DRight => mkEdges (top e) (right e ++ [v]) (bottom e) (left e)
  | DBottom => mkEdges (top e) (right e) (bottom e ++ [v]) (left e)
  | DLeft => mkEdges (top e) (right e) (bottom e) (left e ++ [v])
  end.

Definition hasTop (t : jsval) : bool :=
  bool_decide (t ∈ [JStr "║"; JStr "╔"; JStr "╗"; JStr "╠"; JStr "╣"; JStr "╦"; JStr "╬"]).
Definition hasRight (t : jsval) : bool :=
  bool_decide (t ∈ [JStr "═"; JStr "╔"; JStr "╚"; JStr "╠"; JStr "╦"; JStr "╩"; JStr "╬"]).
Definition hasBottom (t : jsval) : bool :=
  bool_decide (t ∈ [JStr "║"; JStr "╚"; JStr "╝"; JStr "╠"; JStr "╣"; JStr "╩"; JStr "╬"]).
Definition hasLeft (t : jsval) : bool :=
  bool_decide (t ∈ [JStr "═"; JStr "╗"; JStr "╝"; JStr "╣"; JStr "╦"; JStr "╩"; JStr "╬"]).

(** [constraints[k][d].push(v)].  Every key used by [buildConstraints] was
    initialised by its first loop, so the entry is always there. *)
Definition push (k : jsval) (d : direction) (v : jsval)
    (c : gmap string edges) : gmap string edges :=
  alter (push_dir d v) (to_key k) c.

(** The body of the inner loop, for one ordered pair of tiles. *)
Definition constrain_pair (tile1 tile2 : jsval) (c : gmap string edges)
  : gmap string edges :=
  let c :=
    if bool_decide (hasBottom tile1 = hasTop tile2)
    then push tile2 DTop tile1 (push tile1 DBottom tile2 c)
    else c in
  if bool_decide (hasRight tile1 = hasLeft tile2)
  then push tile2 DLeft tile1 (push tile1 DRight tile2 c)
  else c.

Definition buildConstraints (tiles : list jsval) : gmap string edges :=
  let constraints :=
    foldl (fun c tile => <[to_key tile := empty_edges]> c) ∅ tiles in
  foldl (fun c tile1 => foldl (fun c tile2 => constrain_pair tile1 tile2 c) c tiles)
    constraints tiles.

(** [this.constraints[tile][dir]]; [None] when [constraints[tile]] is
    [undefined], where the property read throws.  The map holds the keys
    [buildConstraints] wrote; the object of the code answers in addition to
    the member names of [Object.prototype] ([constructor], [toString], ...),
    none of which is a tile. *)
Definition allowed_of (c : gmap string edges) (tile : jsval) (d : direction)
  : option (list jsval) :=
  e ← c !! to_key tile; Some (get_dir e d).

(** ** Cells and the solver state *)

Module Cell.
Record t := mk {
  possible : list jsval;
  collapsed : bool;
  value : jsval
}.
End Cell.

(** The fields of [this] the solver reads or writes.  [seed] is what
    [this.framework.getSeed()] returns.  The [entropy] rows are only ever
    written by index, and a JavaScript array accepts a write at any index, so
    they are finite maps; the cells of [grid] are created by [regenerate] and
    afterwards only mutated in place, so [grid] is a list of rows.  A conflict
    key is the template string of the two integer coordinates, an injective
    encoding of the pair kept here. *)
Record wfc := mkWfc {
  tiles : list jsval;
  constraints : gmap string edges;
  cols : Z;
  rows : Z;
  seed : Z;
  grid : list (list Cell.t);
  entropy : gmap Z (gmap Z nat);
  collapsed : bool;
  conflicts : list (Z * Z)
}.

Definition set_collapsed (s : wfc) (b : bool) : wfc :=
  mkWfc (tiles s) (constraints s) (cols s) (rows s) (seed s) (grid s)
        (entropy s) b (conflicts s).

(** [const cell = this.grid[y][x]] followed by a read of [cell.collapsed]. *)
Definition get_cell (g : list (list Cell.t)) (x y : Z) : result Cell.t :=
  match lookupZ g y with
  | None => Throw TypeError
  | Some row =>
      match lookupZ row x with
      | None => Throw TypeError
      | Some cell => Ok cell
      end
  end.

(** Mutation of the cell object found at [grid[y][x]]. *)
Definition put_cell (g : list (list Cell.t)) (x y : Z) (c : Cell.t)
  : list (list Cell.t) :=
  alter (fun row => <[Z.to_nat x := c]> row) (Z.to_nat y) g.

(** [this.entropy[y][x] = v] *)
Definition write_entropy (e : gmap Z (gmap Z nat)) (x y : Z) (v : nat)
  : result (gmap Z (gmap Z nat)) :=
  match e !! y with
  | None => Throw TypeError
  | Some row => Ok (<[y := <[x := v]> row]> e)
  end.

(** The coordinates visited by [for y < rows] / [for x < cols], in order. *)
Definition scan (nrows ncols : Z) : list (Z * Z) :=
  y ← seqZ 0 nrows; (fun x => (x, y)) <$> seqZ 0 ncols.

(** ** regenerate *)

Definition fresh_cell (ts : list jsval) : Cell.t := Cell.mk ts false JNull.

Definition fresh_entropy_row (ncols : Z) (n : nat) : gmap Z nat :=
  foldl (fun row x => <[x := n]> row) ∅ (seqZ 0 ncols).

(** [regenerate] has no statement that can throw: it only writes. *)
Definition regenerate (s : wfc) : result wfc :=
  let g := (fun _ => (fun _ => fresh_cell (tiles s)) <$> seqZ 0 (cols s))
             <$> seqZ 0 (rows s) in
  let e := foldl (fun e y => <[y := fresh_entropy_row (cols s) (length (tiles s))]> e)
             ∅ (seqZ 0 (rows s)) in
  Ok (mkWfc (tiles s) (constraints s) (cols s) (rows s) (seed s) g e false []).


(** ** getStepCount *)

Definition getStepCount (s : wfc) : result nat :=
  foldlM (fun count p =>
            cell ← get_cell (grid s) p.1 p.2;
            Ok (if Cell.collapsed cell then S count else count))
         0%nat (scan (rows s) (cols s)).

(** ** propagate *)

Definition neighbors (x y : Z) : list (Z * Z * direction) :=
  [(x, y - 1, DTop); (x + 1, y, DRight); (x, y + 1, DBottom); (x - 1, y, DLeft)].

(** [this.conflicts.splice(this.conflicts.indexOf(k), 1)] when [k] occurs. *)
Fixpoint remove_first (k : Z * Z) (l : list (Z * Z)) : list (Z * Z) :=
  match l with
  | [] => []
  | k' :: l => if bool_decide (k' = k) then l else k' :: remove_first k l
  end.

(** The body of [for (const neighbor of neighbors)]; [changed] is the array
    of the same name. *)
Definition propagate_neighbor (tile : jsval) (acc : wfc * list (Z * Z))
    (nb : Z * Z * direction) : result (wfc * list (Z * Z)) :=
  let '(s, changed) := acc in
  let '(nx, ny, dir) := nb in
  if bool_decide (nx < 0 \/ cols s <= nx \/ ny < 0 \/ rows s <= ny) then Ok acc
  else
    nCell ← get_cell (grid s) nx ny;
    if Cell.collapsed nCell then Ok acc
    else
      match allowed_of (constraints s) tile dir with
      | None => Throw TypeError
      | Some allowed =>
          let before := length (Cell.possible nCell) in
          let possible := filter (fun t => t ∈ allowed) (Cell.possible nCell) in
          let after := length possible in
          '(e, changed) ←
            (if bool_decide (after < before)%nat
             then e ← write_entropy (entropy s) nx ny after;
                  Ok (e, changed ++ [(nx, ny)])
             else Ok (entropy s, changed));
          if bool_decide (after = 0%nat)
          then
            let cs := if bool_decide ((nx, ny) ∈ conflicts s) then conflicts s
                      else conflicts s ++ [(nx, ny)] in
            e ← write_entropy e nx ny (length (tiles s));
            Ok (mkWfc (tiles s) (constraints s) (cols s) (rows s) (seed s)
                  (put_cell (grid s) nx ny
                     (Cell.mk (tiles s) (Cell.collapsed nCell) (Cell.value nCell)))
                  e (collapsed s) cs,
                changed)
          else
            Ok (mkWfc (tiles s) (constraints s) (cols s) (rows s) (seed s)
                  (put_cell (grid s) nx ny
                     (Cell.mk possible (Cell.collapsed nCell) (Cell.value nCell)))
                  e (collapsed s) (remove_first (nx, ny) (conflicts s)),
                changed)
      end.

(** The first loop of [propagate]: one pass over the four neighbours. *)
Definition propagate_pass (s : wfc) (x y : Z) (tile : jsval)
  : result (wfc * list (Z * Z)) :=
  foldlM (propagate_neighbor tile) (s, []) (neighbors x y).

(** [propagate] calls itself; [fuel] bounds the depth of the calls. *)
Fixpoint propagate (fuel : nat) (s : wfc) (x y : Z) : result wfc :=
  match fuel with
  | O => Throw OutOfFuel
  | S fuel =>
      cell ← get_cell (grid s) x y;
      if negb (Cell.collapsed cell) then Ok s
      else
        let tile := Cell.value cell in
        '(s, changed) ← propagate_pass s x y tile;
        foldlM (fun s change => propagate fuel s change.1 change.2) s changed
  end.

(** ** SeededRandom *)

(** The new [this.seed] after one call of [random()]; the call returns this
    number divided by 233280.  [%] takes the sign of the dividend.  The
    numbers of the code are doubles: the product and the sum are the exact
    integers written here as long as their magnitude is at most 2^53 (see
    [exact_key] below), are rounded beyond, and are [Infinity] beyond the
    largest double, about 1.8 * 10^308; [%] is exact. *)
Definition SeededRandom_next (sd : Z) : Z := Z.rem (sd * 9301 + 49297) 233280.

(** The argument of [new SeededRandom(...)] in [getLowestEntropy]; the sum
    is exact while its magnitude is at most 2^53. *)
Definition selector_key (sd : Z) (stepCount : nat) : Z :=
  sd + Z.of_nat stepCount.

(** The argument of [new SeededRandom(...)] in [collapseCell]; the products
    and the sums, taken from left to right, are exact while their magnitude
    is at most 2^53. *)
Definition collapse_key (sd x y : Z) (stepCount : nat) : Z :=
  sd + x * 1000 + y * 100 + Z.of_nat stepCount.

(** ** The methods that draw a pseudo-random index *)

Section Solver.

(** [floor_scaled r n] stands for [Math.floor((r / 233280) * n)], the
    quotient and the product being rounded to double precision.  The
    rounding is not computed here; what the proofs need from it is stated
    as [floor_scaled_range] below. *)
Variable floor_scaled : Z -> Z -> Z.

(** [Math.floor(new SeededRandom(key).random() * n)] *)
Definition random_index (key : Z) (n : nat) : Z :=
  floor_scaled (SeededRandom_next key) (Z.of_nat n).

(** *** getLowestEntropy *)

(** The loop body; [min] is [None] while it is still [Infinity]. *)
Definition lowest_step (g : list (list Cell.t))
    (acc : option nat * list (Z * Z)) (p : Z * Z)
  : result (option nat * list (Z * Z)) :=
  let '(min, candidates) := acc in
  cell ← get_cell g p.1 p.2;
  if Cell.collapsed cell then Ok acc
  else
    let entropy := length (Cell.possible cell) in
    if bool_decide (entropy = 0%nat) then Ok acc
    else
      match min with
      | None => Ok (Some entropy, [p])
      | Some m =>
          if bool_decide (entropy < m)%nat then Ok (Some entropy, [p])
          else if bool_decide (entropy = m) then Ok (min, candidates ++ [p])
          else Ok acc
      end.

(** [None] is a falsy result, [null] or [undefined]: the only use of the
    result, in [collapseStep], tests [!lowest]. *)
Definition getLowestEntropy (s : wfc) : result (option (Z * Z)) :=
  '(_, candidates) ←
    foldlM (lowest_step (grid s)) (None, []) (scan (rows s) (cols s));
  if bool_decide (length candidates = 0%nat) then Ok None
  else
    stepCount ← getStepCount s;
    Ok (lookupZ candidates
          (random_index (selector_key (seed s) stepCount) (length candidates))).

(** *** collapseCell *)

Definition collapseCell (s : wfc) (x y : Z) : result (bool * wfc) :=
  cell ← get_cell (grid s) x y;
  if Cell.collapsed cell || bool_decide (length (Cell.possible cell) = 0%nat)
  then Ok (false, s)
  else
    stepCount ← getStepCount s;
    let i := random_index (collapse_key (seed s) x y stepCount)
               (length (Cell.possible cell)) in
    let choice := default JUndefined (lookupZ (Cell.possible cell) i) in
    e ← write_entropy (entropy s) x y 0%nat;
    Ok (true,
        mkWfc (tiles s) (constraints s) (cols s) (rows s) (seed s)
          (put_cell (grid s) x y (Cell.mk [choice] true choice))
          e (collapsed s) (conflicts s)).

(** *** collapseStep *)

Definition collapseStep (fuel : nat) (s : wfc) : result wfc :=
  lowest ← getLowestEntropy s;
  match lowest with
  | None => Ok (set_collapsed s true)
  | Some (x, y) =>
      '(_, s) ← collapseCell s x y;
      propagate fuel s x y
  end.

(** Repeated calls of [collapseStep]. *)
Fixpoint steps (fuel n : nat) (s : wfc) : result wfc :=
  match n with
  | O => Ok s
  | S n => s' ← collapseStep fuel s; steps fuel n s'
  end.

End Solver.

(** The draw with the quotient and the product taken exactly.  The rounded
    product of the code has the same floor unless [r * n] is a multiple of
    233280.  This function only instantiates [floor_scaled] at concrete
    inputs. *)
Definition floor_exact (r n : Z) : Z := r * n / 233280.


(** ** Vocabulary of the properties *)

(** A grid of [nrows] rows of [ncols] cells, as [regenerate] builds it. *)
Definition shape (g : list (list Cell.t)) (nrows ncols : Z) : Prop :=
  length g = Z.to_nat nrows /\
  Forall (fun row => length row = Z.to_nat ncols) g.

(** The guard of [propagate]'s loop lets the neighbour through. *)
Definition in_bounds (s : wfc) (x y : Z) : Prop :=
  ~ (x < 0 \/ cols s <= x \/ y < 0 \/ rows s <= y).

(** The domain of a cell intersected with an array of allowed tiles. *)
Definition narrowed (allowed : list jsval) (c : Cell.t) : list jsval :=
  filter (fun t => t ∈ allowed) (Cell.possible c).

(** The Conflict Set after a neighbour at [k] was narrowed to [dom]. *)
Definition conflicts_after (ks : list (Z * Z)) (k : Z * Z) (dom : list jsval)
  : list (Z * Z) :=
  if bool_decide (length dom = 0%nat)
  then (if bool_decide (k ∈ ks) then ks else ks ++ [k])
  else remove_first k ks.

(** The domain the neighbour is left with: a reset when it was emptied. *)
Definition domain_after (ts dom : list jsval) : list jsval :=
  if bool_decide (length dom = 0%nat) then ts else dom.

(** Two entropy arrays with the same rows present. *)
Definition same_rows (e e' : gmap Z (gmap Z nat)) : Prop :=
  forall y, is_Some (e !! y) <-> is_Some (e' !! y).

(** What a propagation may do to one cell: the [collapsed] flag and the
    [value] stay, and a collapsed cell stays as it is. *)
Definition cell_kept (r r' : result Cell.t) : Prop :=
  match r, r' with
  | Ok c, Ok c' =>
      Cell.collapsed c' = Cell.collapsed c /\
      Cell.value c' = Cell.value c /\
      (Cell.collapsed c = true -> c' = c)
  | Throw e, Throw e' => e = e'
  | _, _ => False
  end.

(** What a propagation leaves alone in the solver state. *)
Record frame (s s' : wfc) : Prop := mkFrame {
  frame_tiles : tiles s' = tiles s;
  frame_constraints : constraints s' = constraints s;
  frame_cols : cols s' = cols s;
  frame_rows : rows s' = rows s;
  frame_seed : seed s' = seed s;
  frame_collapsed : collapsed s' = collapsed s;
  frame_grid : forall x y, cell_kept (get_cell (grid s) x y) (get_cell (grid s') x y);
  frame_shape : forall nrows ncols,
      shape (grid s) nrows ncols -> shape (grid s') nrows ncols;
  frame_entropy : same_rows (entropy s) (entropy s')
}.

(** Every coordinate pushed on [changed] holds an uncollapsed cell. *)
Definition changed_ok (s : wfc) (ch : list (Z * Z)) : Prop :=
  forall p, p ∈ ch ->
    exists c, get_cell (grid s) p.1 p.2 = Ok c /\ Cell.collapsed c = false.

(** A test on the cell at a scanned coordinate. *)
Definition cell_test (P : Cell.t -> bool) (g : list (list Cell.t)) (p : Z * Z)
  : bool :=
  match get_cell g p.1 p.2 with
  | Ok c => P c
  | Throw _ => false
  end.

(** The collapsed and the uncollapsed cells, by coordinate. *)
Definition collapsed_cells (s : wfc) : list (Z * Z) :=
  filter (fun p => cell_test Cell.collapsed (grid s) p = true)
    (scan (rows s) (cols s)).
Definition uncollapsed_cells (s : wfc) : list (Z * Z) :=
  filter (fun p => cell_test (fun c => negb (Cell.collapsed c)) (grid s) p = true)
    (scan (rows s) (cols s)).

(** The arrays have the sizes [regenerate] gave them. *)
Definition allocated (s : wfc) : Prop :=
  shape (grid s) (rows s) (cols s) /\
  forall y, 0 <= y < rows s -> is_Some (entropy s !! y).

(** The invariant of section 3 of the specification, for one cell. *)
Definition cell_invariant (c : Cell.t) : Prop :=
  if Cell.collapsed c then Cell.possible c = [Cell.value c]
  else (0 <= length (Cell.possible c))%nat.

(** A state a run can be in: arrays allocated, a non-negative seed, a table
    entry for every tile, every collapsed cell holding its one tile of the
    catalogue and every other cell a part of the catalogue. *)
Record wf (s : wfc) : Prop := mkWf {
  wf_allocated : allocated s;
  wf_seed : 0 <= seed s;
  wf_table : forall t, t ∈ tiles s -> is_Some (constraints s !! to_key t);
  wf_cells : forall x y c, get_cell (grid s) x y = Ok c ->
      if Cell.collapsed c
      then Cell.possible c = [Cell.value c] /\ Cell.value c ∈ tiles s
      else Cell.possible c ⊆ tiles s
}.

(** An input the specification calls invalid: negative dimensions and an
    empty catalogue. *)
Definition invalid_input : wfc := mkWfc [] ∅ (-3) (-2) 0 [] ∅ false [].

(** The entropy of the cell at a coordinate: the size of its domain. *)
Definition domain_size (g : list (list Cell.t)) (p : Z * Z) : nat :=
  match get_cell g p.1 p.2 with
  | Ok c => length (Cell.possible c)
  | Throw _ => 0%nat
  end.

(** The cells the selector considers: uncollapsed, with a nonempty domain. *)
Definition eligible (g : list (list Cell.t)) (p : Z * Z) : bool :=
  cell_test (fun c => negb (Cell.collapsed c) &&
                      negb (bool_decide (length (Cell.possible c) = 0%nat))) g p.

(** The members of [l] of minimal size, in the order of [l]. *)
Definition argmins {A} (sz : A -> nat) (l : list A) : list A :=
  filter (fun a => Forall (fun b => (sz a <= sz b)%nat) l) l.

Definition min_of {A} (sz : A -> nat) (l : list A) : option nat :=
  sz <$> head (argmins sz l).

(** The candidate list of the specification: the eligible cells whose domain
    size is the minimum over all eligible cells, in row-major scan order. *)
Definition lowest_entropy_cells (s : wfc) : list (Z * Z) :=
  argmins (domain_size (grid s))
    (filter (fun p => eligible (grid s) p = true) (scan (rows s) (cols s))).

(** What one ordered pair [(a, b)] of the double loop appends under key [k]. *)
Definition contrib (a b : jsval) (k : string) (d : direction) (v : jsval) : Prop :=
  match d with
  | DBottom => to_key a = k /\ v = b /\ hasBottom a = hasTop b
  | DTop => to_key b = k /\ v = a /\ hasBottom a = hasTop b
  | DRight => to_key a = k /\ v = b /\ hasRight a = hasLeft b
  | DLeft => to_key b = k /\ v = a /\ hasRight a = hasLeft b
  end.

(** The entry under [k] exists in both tables or in neither, and its four
    arrays gained exactly the members described by [R]. *)
Definition extends (k : string) (R : direction -> jsval -> Prop)
    (c c' : gmap string edges) : Prop :=
  match c !! k, c' !! k with
  | Some e, Some e' =>
      forall d v, v ∈ get_dir e' d <-> v ∈ get_dir e d \/ R d v
  | None, None => True
  | _, _ => False
  end.

(** The edge test behind [constraints[a][d]]. *)
Definition compatible (a : jsval) (d : direction) (b : jsval) : Prop :=
  match d with
  | DTop => hasBottom b = hasTop a
  | DRight => hasRight a = hasLeft b
  | DBottom => hasBottom a = hasTop b
  | DLeft => hasRight b = hasLeft a
  end.

Definition all_strings (l : list jsval) : Prop :=
  forall t, t ∈ l -> exists s, t = JStr s.

(** [b] is a member of [constraints[a][d]]. *)
Definition permits (c : gmap string edges) (a : jsval) (d : direction) (b : jsval)
  : Prop :=
  exists l, allowed_of c a d = Some l /\ b ∈ l.

(** ** A scenario on a 3 x 3 grid *)

(** The cell at [(x, y)] set by hand to a collapsed tile, as a test does
    before it calls [propagate]. *)
Definition precollapse (s : wfc) (x y : Z) (t : jsval) : wfc :=
  mkWfc (tiles s) (constraints s) (cols s) (rows s) (seed s)
    (put_cell (grid s) x y (Cell.mk [t] true t)) (entropy s)
    (collapsed s) (conflicts s).

(** The solver on a 60 x 60 canvas, before [regenerate]. *)
Definition blank_solver : wfc :=
  mkWfc catalog (buildConstraints catalog) 3 3 42 [] ∅ false [].

(** The state [regenerate] answers with; it never throws. *)
Definition regenerated (s : wfc) : wfc :=
  match regenerate s with
  | Ok s' => s'
  | Throw _ => s
  end.

(** The left and the right neighbour of the centre are collapsed to the
    blank tile and propagated from, which leaves the centre with the blank
    and the vertical tile; then the bottom neighbour is collapsed to the
    blank tile, and [propagate] is about to be called on it. *)
Definition squeezed : wfc :=
  let s := regenerated blank_solver in
  match propagate 2 (precollapse s 0 1 (JStr " ")) 0 1 with
  | Throw _ => s
  | Ok s =>
      match propagate 2 (precollapse s 2 1 (JStr " ")) 2 1 with
      | Throw _ => s
      | Ok s => precollapse s 1 2 (JStr " ")
      end
  end.

(** Arc consistency from the cell at [(x, y)] towards its neighbour in
    direction [dir]: every tile left in the neighbour's domain is allowed
    there by some tile left in the cell's domain. *)
Definition arc_consistent (s : wfc) (x y : Z) (nb : Z * Z * direction) : Prop :=
  match get_cell (grid s) x y, get_cell (grid s) nb.1.1 nb.1.2 with
  | Ok c, Ok n =>
      forall t, t ∈ Cell.possible n ->
        exists u, u ∈ Cell.possible c /\ permits (constraints s) u nb.2 t
  | _, _ => True
  end.

(** The centre cell of [squeezed] and the tiles the blank tile allows above
    itself. *)
Definition centre_cell : Cell.t := Cell.mk [JStr " "; JStr "║"] false JNull.

(** [squeezed] after [propagate] from the bottom neighbour, and after
    [collapseCell] on the centre with the exact draw. *)
Definition squeezed_propagated : wfc :=
  match propagate 2 squeezed 1 2 with
  | Ok s => s
  | Throw _ => squeezed
  end.
Definition squeezed_collapsed : wfc :=
  match collapseCell floor_exact squeezed 1 1 with
  | Ok (_, s) => s
  | Throw _ => squeezed
  end.

(** ** The handlers of [init] and what [render] reads *)

(** The framework's [setSeed] stores the seed and fires [onSeedChange],
    which calls [regenerate]; [onReset] calls [regenerate] with the seed as
    it is. *)
Definition with_seed (s : wfc) (sd : Z) : wfc :=
  mkWfc (tiles s) (constraints s) (cols s) (rows s) sd (grid s) (entropy s)
        (collapsed s) (conflicts s).
Definition onSeedChange (s : wfc) (sd : Z) : result wfc := regenerate (with_seed s sd).
Definition onReset (s : wfc) : result wfc := regenerate s.

(** [this.entropy[y][x]], as the heat map of [render] reads it; [None] is
    [undefined]. *)
Definition entropy_at (e : gmap Z (gmap Z nat)) (x y : Z) : option nat :=
  row ← e !! y; row !! x.

(** What the heat map should show for a cell. *)
Definition entropy_of (c : Cell.t) : nat :=
  if Cell.collapsed c then 0%nat else length (Cell.possible c).

(** ** Vocabulary of the further properties *)

(** What every state of a run satisfies besides [wf]. *)
Record run_inv (s : wfc) : Prop := mkRunInv {
  ri_wf : wf s;
  ri_tiles : NoDup (tiles s);
  ri_domains : forall x y c, get_cell (grid s) x y = Ok c ->
      Cell.collapsed c = false ->
      NoDup (Cell.possible c) /\ (tiles s <> [] -> Cell.possible c <> []) /\
      Cell.value c = JNull;
  ri_conflicts : NoDup (conflicts s) /\
      forall k, k ∈ conflicts s -> exists c, get_cell (grid s) k.1 k.2 = Ok c;
  ri_entropy : forall x y c, get_cell (grid s) x y = Ok c ->
      entropy_at (entropy s) x y = Some (entropy_of c)
}.

(** The direction in which [(x', y')] is a neighbour of [(x, y)], in the
    order of the array [neighbors] of [propagate]. *)
Definition neighbor_dir (x y x' y' : Z) : option direction :=
  if bool_decide ((x', y') = (x, y - 1)) then Some DTop
  else if bool_decide ((x', y') = (x + 1, y)) then Some DRight
  else if bool_decide ((x', y') = (x, y + 1)) then Some DBottom
  else if bool_decide ((x', y') = (x - 1, y)) then Some DLeft
  else None.

(** What [propagate] from a cell holding [tile] makes of a neighbour cell
    [c] in direction [dir]. *)
Definition propagated_cell (s : wfc) (tile : jsval) (dir : direction) (c : Cell.t)
  : Cell.t :=
  if Cell.collapsed c then c
  else
    match allowed_of (constraints s) tile dir with
    | Some allowed =>
        Cell.mk (domain_after (tiles s) (narrowed allowed c)) false (Cell.value c)
    | None => c
    end.

#[global] Instance in_bounds_dec s x y : Decision (in_bounds s x y).
Proof. unfold in_bounds. apply _. Defined.

(** The cell found at [(x', y')] after the loop of [propagate] has run over
    the neighbours [nbs], when it was [c] before and no coordinate occurs
    twice in [nbs]. *)
Fixpoint pass_cell (s : wfc) (tile : jsval) (nbs : list (Z * Z * direction))
    (x' y' : Z) (c : Cell.t) : Cell.t :=
  match nbs with
  | [] => c
  | (nx, ny, dir) :: nbs =>
      if bool_decide ((x', y') = (nx, ny))
      then (if bool_decide (in_bounds s x' y') then propagated_cell s tile dir c else c)
      else pass_cell s tile nbs x' y' c
  end.

(** The fresh 3 x 3 grid after three steps with the exact draw, and the
    same solver with a negative seed typed into the seed field. *)
Definition three_steps : wfc :=
  match steps floor_exact 2 3 (regenerated blank_solver) with
  | Ok s => s
  | Throw _ => blank_solver
  end.
Definition negative_solver : wfc := regenerated (with_seed blank_solver (-10)).

(** The conflict key as [propagate] writes it, the template string of the
    two coordinates with a comma between them.  An integer whose magnitude is
    below 10^21 is converted to its decimal digits, with a minus sign when it
    is negative. *)
Definition conflictKey (x y : Z) : string := pretty x +:+ "," +:+ pretty y.

Fixpoint comma_free (s : string) : bool :=
  match s with
  | EmptyString => true
  | String a s => negb (Ascii.eqb a ","%char) && comma_free s
  end.

(** ** The seeds the framework declares, and exact arithmetic on the keys *)

(** The seed field of [DemoFramework.js] is a number input with [min = 0]
    and [max = 9999999]; the seeds the framework draws itself are below
    1000000.  The bounds are declared, not enforced: the value typed into
    the field goes through [parseInt] to [setSeed] as it is. *)
Definition declared_seed (sd : Z) : Prop := 0 <= sd <= 9999999.

(** A key [k] that is not negative and for which [k * 9301 + 49297] is at
    most 2^53: every integer up to 2^53 is a double, so [random()] on a
    generator seeded with such a key computes the integers of
    [SeededRandom_next] without rounding. *)
Definition exact_key (k : Z) : Prop := 0 <= k /\ k * 9301 + 49297 <= 2 ^ 53.

(** A bound on every key a run on [nrows] rows and [ncols] columns seeds a
    generator with, for the framework seed [sd]: a drawn coordinate is below
    the dimensions, and the number of collapsed cells is at most the number
    of cells. *)
Definition max_key (sd nrows ncols : Z) : Z :=
  sd + 1000 * Z.max 0 ncols + 100 * Z.max 0 nrows + Z.max 0 nrows * Z.max 0 ncols.

(** ** Further scenarios on the 3 x 3 grid *)




(** The fresh grid with the centre collapsed to the cross and propagated
    from: the four neighbours are left with seven tiles each, the corners
    with twelve. *)
Definition crossed : wfc :=
  match propagate 2 (precollapse (regenerated blank_solver) 1 1 (JStr "╬")) 1 1 with
  | Ok s => s
  | Throw _ => blank_solver
  end.

(** [negative_solver] after [collapseCell] on the origin with the exact
    draw. *)
Definition negative_collapsed : wfc :=
  match collapseCell floor_exact negative_solver 0 0 with
  | Ok (_, s) => s
  | Throw _ => negative_solver
  end.

(** * Properties *)

(** ** The constraint table *)

Lemma extends_refl k c : extends k (fun _ _ => False) c c.
Proof. unfold extends. destruct (c !! k); [|done]. tauto. Qed.

Lemma extends_trans k R1 R2 R c1 c2 c3 :
  extends k R1 c1 c2 -> extends k R2 c2 c3 ->
  (forall d v, R d v <-> R1 d v \/ R2 d v) ->
  extends k R c1 c3.
Proof.
  unfold extends. intros H12 H23 HR.
  destruct (c1 !! k), (c2 !! k), (c3 !! k); try done.
  intros d v. rewrite H23, H12, HR. tauto.
Qed.

Lemma extends_push k a d v c :
  extends k (fun d' v' => to_key a = k /\ d' = d /\ v' = v) c (push a d v c).
Proof.
  unfold extends, push. rewrite lookup_alter.
  destruct (decide (to_key a = k)) as [<-|Hne].
  - destruct (c !! to_key a) as [e|]; simpl; [|done].
    intros d' v'.
    destruct d, d'; simpl; rewrite ?elem_of_app, ?list_elem_of_singleton;
      intuition congruence.
  - destruct (c !! k); [|done]. naive_solver.
Qed.

Lemma extends_constrain_pair k a b c :
  extends k (contrib a b k) c (constrain_pair a b c).
Proof.
  unfold constrain_pair.
  set (R1 := fun d v => hasBottom a = hasTop b /\
     ((to_key a = k /\ d = DBottom /\ v = b) \/ (to_key b = k /\ d = DTop /\ v = a))).
  set (R2 := fun d v => hasRight a = hasLeft b /\
     ((to_key a = k /\ d = DRight /\ v = b) \/ (to_key b = k /\ d = DLeft /\ v = a))).
  set (c1 := if bool_decide (hasBottom a = hasTop b) then _ else c).
  assert (H1 : extends k R1 c c1).
  { subst c1. case_bool_decide as Hc.
    - eapply extends_trans; [apply extends_push | apply extends_push |].
      subst R1. naive_solver.
    - eapply extends_trans; [apply extends_refl | apply extends_refl |].
      subst R1. naive_solver. }
  assert (H2 : extends k R2 c1 (if bool_decide (hasRight a = hasLeft b)
                                then push b DLeft a (push a DRight b c1) else c1)).
  { case_bool_decide as Hc.
    - eapply extends_trans; [apply extends_push | apply extends_push |].
      subst R2. naive_solver.
    - eapply extends_trans; [apply extends_refl | apply extends_refl |].
      subst R2. naive_solver. }
  eapply extends_trans; [exact H1 | exact H2 |].
  intros d v. subst R1 R2. destruct d; simpl; naive_solver.
Qed.

Lemma extends_inner k a l c :
  extends k (fun d v => exists b, b ∈ l /\ contrib a b k d v) c
    (foldl (fun c tile2 => constrain_pair a tile2 c) c l).
Proof.
  revert c. induction l as [|b l IH]; intros c; simpl.
  - eapply extends_trans; [apply extends_refl | apply extends_refl |].
    intros d v. split; [intros (b & Hb & _); by apply elem_of_nil in Hb | tauto].
  - eapply extends_trans; [apply (extends_constrain_pair k a b) | apply IH |].
    intros d v. split.
    + intros (b' & Hb' & Hc). apply elem_of_cons in Hb' as [->|Hb']; eauto.
    + intros [Hc | (b' & Hb' & Hc)]; [exists b | exists b']; split; auto;
        apply elem_of_cons; auto.
Qed.

Lemma extends_outer k l2 l1 c :
  extends k (fun d v => exists a b, a ∈ l1 /\ b ∈ l2 /\ contrib a b k d v) c
    (foldl (fun c tile1 => foldl (fun c tile2 => constrain_pair tile1 tile2 c) c l2)
       c l1).
Proof.
  revert c. induction l1 as [|a l1 IH]; intros c; simpl.
  - eapply extends_trans; [apply extends_refl | apply extends_refl |].
    intros d v. split; [intros (a & b & Ha & _); by apply elem_of_nil in Ha | tauto].
  - eapply extends_trans; [apply (extends_inner k a l2) | apply IH |].
    intros d v. split.
    + intros (a' & b & Ha' & Hb & Hc).
      apply elem_of_cons in Ha' as [->|Ha']; eauto 7.
    + intros [(b & Hb & Hc) | (a' & b & Ha' & Hb & Hc)];
        [exists a, b | exists a', b]; repeat split; auto; apply elem_of_cons; auto.
Qed.

(** The first loop: one empty entry per tile. *)
Lemma init_table_lookup l (c : gmap string edges) k :
  foldl (fun c tile => <[to_key tile := empty_edges]> c) c l !! k =
  if bool_decide (k ∈ to_key <$> l) then Some empty_edges else c !! k.
Proof.
  revert c. induction l as [|t l IH]; intros c; simpl; [done|].
  rewrite IH. destruct (decide (k ∈ to_key <$> l)) as [Hin|Hin].
  - rewrite !bool_decide_eq_true_2; [done| |done]. by apply elem_of_cons; right.
  - rewrite (bool_decide_eq_false_2 _ Hin).
    destruct (decide (to_key t = k)) as [<-|Hk].
    + rewrite lookup_insert_eq, bool_decide_eq_true_2; [done|]. apply elem_of_cons; auto.
    + rewrite lookup_insert_ne by done.
      rewrite bool_decide_eq_false_2; [done|].
      rewrite elem_of_cons. intros [?|?]; [congruence|done].
Qed.

Lemma to_key_inj_strings l a b :
  all_strings l -> a ∈ l -> b ∈ l -> to_key a = to_key b -> a = b.
Proof.
  intros Hl Ha Hb. destruct (Hl a Ha) as [sa ->], (Hl b Hb) as [sb ->].
  simpl. by intros ->.
Qed.

(** Every tile of the catalogue has an entry, and its arrays hold exactly the
    compatible tiles of the catalogue. *)
Lemma buildConstraints_spec ts a d :
  all_strings ts -> a ∈ ts ->
  exists l, allowed_of (buildConstraints ts) a d = Some l /\
            forall b, b ∈ l <-> b ∈ ts /\ compatible a d b.
Proof.
  intros Hs Ha. unfold allowed_of, buildConstraints.
  pose proof (extends_outer (to_key a) ts ts
    (foldl (fun c tile => <[to_key tile := empty_edges]> c) ∅ ts)) as Hext.
  unfold extends in Hext. rewrite init_table_lookup in Hext.
  rewrite bool_decide_eq_true_2 in Hext by (by apply list_elem_of_fmap_2).
  destruct (foldl _ _ ts !! to_key a) as [e|]; [|done]. simpl.
  exists (get_dir e d). split; [done|]. intros b. rewrite Hext.
  split.
  - intros [Hb | (a' & b' & Ha' & Hb' & Hc)].
    { destruct d; simpl in Hb; by apply elem_of_nil in Hb. }
    destruct d; simpl in *; destruct Hc as (Hk & -> & Hc);
      first [ apply (to_key_inj_strings ts) in Hk; [subst; auto | done..] ].
  - intros [Hb Hc]. right.
    destruct d; simpl in *;
      first [ by exists a, b | by exists b, a ].
Qed.

Lemma compatible_opposite a d b : compatible a d b <-> compatible b (opposite d) a.
Proof. destruct d; simpl; done. Qed.

(** C3.  For a catalogue of strings, and any two of its tiles [a] and [b]
    and direction [d]: [b] is in [constraints[a][d]] of the table built by
    [buildConstraints] if and only if [a] is in [constraints[b][opposite d]]. *)
Theorem constraint_symmetry ts a b d :
  all_strings ts -> a ∈ ts -> b ∈ ts ->
  permits (buildConstraints ts) a d b <->
  permits (buildConstraints ts) b (opposite d) a.
Proof.
  intros Hs Ha Hb. unfold permits.
  destruct (buildConstraints_spec ts a d Hs Ha) as (la & Hla & Hma).
  destruct (buildConstraints_spec ts b (opposite d) Hs Hb) as (lb & Hlb & Hmb).
  rewrite Hla, Hlb. split.
  - intros (l & [= <-] & Hin). exists lb. split; [done|].
    apply Hmb. split; [done|]. apply (proj1 (compatible_opposite a d b)).
    by apply Hma.
  - intros (l & [= <-] & Hin). exists la. split; [done|].
    apply Hma. split; [done|]. apply (proj2 (compatible_opposite a d b)).
    by apply Hmb.
Qed.

(** ** The error monad and loops *)

Lemma bind_Ok {A B} (m : result A) (f : A -> result B) b :
  (m ≫= f) = Ok b <-> exists a, m = Ok a /\ f a = Ok b.
Proof.
  destruct m as [a|e]; simpl; split.
  - eauto.
  - by intros (a' & [= <-] & H).
  - done.
  - by intros (a' & [=] & _).
Qed.

Lemma foldlM_app {A B} (f : A -> B -> result A) a l1 l2 :
  foldlM f a (l1 ++ l2) = (a' ← foldlM f a l1; foldlM f a' l2).
Proof.
  revert a. induction l1 as [|b l1 IH]; intros a; simpl; [done|].
  destruct (f a b); simpl; [apply IH | done].
Qed.

Lemma foldlM_snoc {A B} (f : A -> B -> result A) a l b :
  foldlM f a (l ++ [b]) = (a' ← foldlM f a l; f a' b).
Proof.
  rewrite foldlM_app. destruct (foldlM f a l) as [a'|]; simpl; [|done].
  by destruct (f a' b).
Qed.

(** A property kept by the loop body is kept by the loop. *)
Lemma foldlM_inv {A B} (P : A -> Prop) (f : A -> B -> result A) l a r :
  (forall a b a', b ∈ l -> P a -> f a b = Ok a' -> P a') ->
  P a -> foldlM f a l = Ok r -> P r.
Proof.
  revert a. induction l as [|b l IH]; intros a Hf Ha; simpl.
  - by intros [= <-].
  - intros (a' & Hab & Hr)%bind_Ok.
    apply (IH a'); [| |done].
    + intros ? ? ? ?. apply Hf. by apply elem_of_cons; right.
    + eapply Hf; [|done..]. apply elem_of_cons; auto.
Qed.

(** A loop whose body cannot throw under the invariant does not throw. *)
Lemma foldlM_total {A B} (P : A -> Prop) (f : A -> B -> result A) l a :
  (forall a b, b ∈ l -> P a -> exists a', f a b = Ok a' /\ P a') ->
  P a -> exists r, foldlM f a l = Ok r /\ P r.
Proof.
  revert a. induction l as [|b l IH]; intros a Hf Ha; simpl; [eauto|].
  destruct (Hf a b) as (a' & -> & Ha'); [apply elem_of_cons; auto | done |].
  simpl. apply IH; [|done]. intros ? ? ?. apply Hf. by apply elem_of_cons; right.
Qed.

(** ** Reading and mutating cells *)

Lemma lookupZ_Some {A} (l : list A) i a :
  lookupZ l i = Some a <-> 0 <= i /\ l !! Z.to_nat i = Some a.
Proof. unfold lookupZ. case_bool_decide; naive_solver. Qed.

Lemma get_cell_Ok g x y c :
  get_cell g x y = Ok c <->
  0 <= x /\ 0 <= y /\
  exists row, g !! Z.to_nat y = Some row /\ row !! Z.to_nat x = Some c.
Proof.
  unfold get_cell. split.
  - destruct (lookupZ g y) as [row|] eqn:Hy; [|done].
    destruct (lookupZ row x) as [c'|] eqn:Hx; [|done].
    intros [= <-]. apply lookupZ_Some in Hy as [? ?], Hx as [? ?]. eauto.
  - intros (Hx & Hy & row & Hrow & Hc).
    rewrite (proj2 (lookupZ_Some g y row)) by done.
    by rewrite (proj2 (lookupZ_Some row x c)).
Qed.

Lemma get_put_eq g x y c c' :
  get_cell g x y = Ok c -> get_cell (put_cell g x y c') x y = Ok c'.
Proof.
  intros (Hx & Hy & row & Hrow & Hc)%get_cell_Ok. apply get_cell_Ok.
  do 2 (split; [done|]). exists (<[Z.to_nat x := c']> row). split.
  - unfold put_cell. by rewrite list_lookup_alter_eq, Hrow.
  - apply list_lookup_insert_eq. by eapply lookup_lt_Some.
Qed.

Lemma get_put_ne g x y x' y' c' :
  0 <= x -> 0 <= y -> (x', y') <> (x, y) ->
  get_cell (put_cell g x y c') x' y' = get_cell g x' y'.
Proof.
  intros Hx Hy Hne. unfold get_cell, lookupZ, put_cell.
  case_bool_decide as Hy'; [|done].
  destruct (decide (Z.to_nat y = Z.to_nat y')) as [Heq|Hney].
  - rewrite <- Heq, list_lookup_alter_eq.
    destruct (g !! Z.to_nat y) as [row|]; simpl; [|done].
    case_bool_decide as Hx'; [|done].
    rewrite list_lookup_insert_ne; [done|].
    intros Hxx. apply Hne. f_equal; lia.
  - by rewrite list_lookup_alter_ne.
Qed.

Lemma shape_put g nrows ncols x y c :
  shape g nrows ncols -> shape (put_cell g x y c) nrows ncols.
Proof.
  intros [Hr Hc]. split; unfold put_cell.
  - by rewrite length_alter.
  - apply Forall_alter; [done|]. intros row ? Hl. simpl in *.
    by rewrite length_insert.
Qed.

Lemma shape_get g nrows ncols x y :
  shape g nrows ncols -> 0 <= x < ncols -> 0 <= y < nrows ->
  exists c, get_cell g x y = Ok c.
Proof.
  intros [Hr Hc] Hx Hy.
  destruct (lookup_lt_is_Some_2 g (Z.to_nat y)) as [row Hrow]; [lia|].
  assert (Hlen : length row = Z.to_nat ncols).
  { eapply (proj1 (Forall_lookup _ _) Hc); eauto. }
  destruct (lookup_lt_is_Some_2 row (Z.to_nat x)) as [c Hcell]; [lia|].
  exists c. apply get_cell_Ok. split; [lia|]. split; [lia|]. eauto.
Qed.

Lemma get_shape g nrows ncols x y c :
  shape g nrows ncols -> get_cell g x y = Ok c ->
  0 <= x < ncols /\ 0 <= y < nrows.
Proof.
  intros [Hr Hc] (Hx & Hy & row & Hrow & Hcell)%get_cell_Ok.
  pose proof (lookup_lt_Some _ _ _ Hrow) as Hy'.
  pose proof (lookup_lt_Some _ _ _ Hcell) as Hx'.
  assert (Hlen : length row = Z.to_nat ncols).
  { eapply (proj1 (Forall_lookup _ _) Hc); eauto. }
  lia.
Qed.

Lemma elem_of_scan x y nrows ncols :
  (x, y) ∈ scan nrows ncols <-> 0 <= x < ncols /\ 0 <= y < nrows.
Proof.
  unfold scan. rewrite list_elem_of_bind. split.
  - intros (y' & Hin & Hy'). apply list_elem_of_fmap in Hin as (x' & [= -> ->] & Hx').
    apply elem_of_seqZ in Hx', Hy'. lia.
  - intros [Hx Hy]. exists y. split.
    + apply list_elem_of_fmap. exists x. split; [done|]. apply elem_of_seqZ. lia.
    + apply elem_of_seqZ. lia.
Qed.

(** ** One neighbour of [propagate] *)

Lemma same_rows_refl e : same_rows e e.
Proof. done. Qed.

Lemma same_rows_trans e1 e2 e3 : same_rows e1 e2 -> same_rows e2 e3 -> same_rows e1 e3.
Proof. intros H1 H2 y. specialize (H1 y). specialize (H2 y). tauto. Qed.

Lemma write_entropy_rows e x y v e' :
  write_entropy e x y v = Ok e' -> same_rows e e'.
Proof.
  unfold write_entropy. destruct (e !! y) as [row|] eqn:Hrow; [|done].
  intros [= <-] y'. destruct (decide (y = y')) as [<-|Hne].
  - rewrite lookup_insert_eq, Hrow. split; eauto.
  - by rewrite lookup_insert_ne.
Qed.

(** Everything the loop body can do when it does not throw: nothing, for a
    neighbour off the grid or collapsed; otherwise the intersection, the
    bookkeeping of [changed] and of the conflicts, and the reset. *)
Lemma propagate_neighbor_inv tile s ch nx ny dir s' ch' :
  propagate_neighbor tile (s, ch) (nx, ny, dir) = Ok (s', ch') ->
  (s' = s /\ ch' = ch /\
   (~ in_bounds s nx ny \/
    exists c, get_cell (grid s) nx ny = Ok c /\ Cell.collapsed c = true)) \/
  (exists nCell allowed e',
     in_bounds s nx ny /\
     get_cell (grid s) nx ny = Ok nCell /\ Cell.collapsed nCell = false /\
     allowed_of (constraints s) tile dir = Some allowed /\
     same_rows (entropy s) e' /\
     ch' = (if bool_decide (length (narrowed allowed nCell)
                            < length (Cell.possible nCell))%nat
            then ch ++ [(nx, ny)] else ch) /\
     s' = mkWfc (tiles s) (constraints s) (cols s) (rows s) (seed s)
            (put_cell (grid s) nx ny
               (Cell.mk (domain_after (tiles s) (narrowed allowed nCell)) false
                  (Cell.value nCell)))
            e' (collapsed s)
            (conflicts_after (conflicts s) (nx, ny) (narrowed allowed nCell))).
Proof.
  unfold propagate_neighbor, in_bounds.
  case_bool_decide as Hb.
  { intros [= <- <-]. left. split; [done|]. split; [done|]. left. tauto. }
  intros (nCell & Hcell & H)%bind_Ok.
  destruct (Cell.collapsed nCell) eqn:Hcol.
  { injection H as <- <-. left. split; [done|]. split; [done|]. right. eauto. }
  destruct (allowed_of (constraints s) tile dir) as [allowed|] eqn:Hal; [|done].
  apply bind_Ok in H as ([e1 ch1] & H1 & H).
  right. exists nCell, allowed. fold (narrowed allowed nCell) in *.
  assert (same_rows (entropy s) e1 /\
                ch1 = (if bool_decide (length (narrowed allowed nCell)
                            < length (Cell.possible nCell))%nat
                       then ch ++ [(nx, ny)] else ch)) as [He1 Hch].
  { destruct (bool_decide _) in H1 |- *.
    - apply bind_Ok in H1 as (e0 & He0 & [= <- <-]).
      split; [by eapply write_entropy_rows | done].
    - injection H1 as <- <-. split; [apply same_rows_refl | done]. }
  unfold domain_after, conflicts_after.
  destruct (bool_decide (length (narrowed allowed nCell) = 0%nat)).
  - apply bind_Ok in H as (e2 & He2 & [= <- <-]). exists e2.
    split_and!; try done.
    eapply same_rows_trans; [done | by eapply write_entropy_rows].
  - injection H as <- <-. by exists e1.
Qed.

(** The loop body does not throw when the neighbour, if on the grid, has a
    cell and an entropy row, and the tile of the origin has a table entry. *)
Lemma propagate_neighbor_total tile s ch nx ny dir :
  (in_bounds s nx ny -> exists c, get_cell (grid s) nx ny = Ok c) ->
  (in_bounds s nx ny -> is_Some (entropy s !! ny)) ->
  is_Some (constraints s !! to_key tile) ->
  exists r, propagate_neighbor tile (s, ch) (nx, ny, dir) = Ok r.
Proof.
  intros Hcell Hent [e He]. unfold propagate_neighbor.
  case_bool_decide as Hb; [eauto|].
  destruct (Hcell Hb) as [c ->]. simpl.
  destruct (Cell.collapsed c); [eauto|].
  unfold allowed_of. rewrite He. simpl.
  destruct (Hent Hb) as [row Hrow].
  unfold write_entropy. rewrite Hrow.
  destruct (bool_decide (_ < _)%nat); simpl;
    destruct (bool_decide (_ = 0%nat)); simpl;
    rewrite ?lookup_insert_eq, ?Hrow; simpl; eauto.
Qed.

(** ** The frame of a propagation *)

Lemma cell_kept_refl r : cell_kept r r.
Proof. by destruct r. Qed.

Lemma cell_kept_trans r1 r2 r3 : cell_kept r1 r2 -> cell_kept r2 r3 -> cell_kept r1 r3.
Proof.
  destruct r1 as [c1|], r2 as [c2|], r3 as [c3|]; simpl; try done; [|congruence].
  intros (Hc & Hv & Hk) (Hc' & Hv' & Hk'). repeat split; [congruence..|].
  intros H. rewrite Hk', Hk; congruence.
Qed.

Lemma frame_refl s : frame s s.
Proof. split; try done. intros. apply cell_kept_refl. Qed.

Lemma frame_trans s1 s2 s3 : frame s1 s2 -> frame s2 s3 -> frame s1 s3.
Proof.
  intros [] []. split; try congruence; auto.
  - intros x y. by eapply cell_kept_trans.
  - by eapply same_rows_trans.
Qed.

Lemma changed_ok_frame s s' ch : frame s s' -> changed_ok s ch -> changed_ok s' ch.
Proof.
  intros Hf Hch p Hp. destruct (Hch p Hp) as (c & Hc & Hcol).
  pose proof (frame_grid _ _ Hf p.1 p.2) as Hk. rewrite Hc in Hk.
  destruct (get_cell (grid s') p.1 p.2) as [c'|]; [|done].
  destruct Hk as (Hk & _). exists c'. split; congruence.
Qed.

Lemma propagate_neighbor_frame tile s ch nb s' ch' :
  propagate_neighbor tile (s, ch) nb = Ok (s', ch') ->
  frame s s' /\ (changed_ok s ch -> changed_ok s' ch').
Proof.
  destruct nb as [[nx ny] dir].
  intros [(-> & -> & _) | (nCell & allowed & e' & Hb & Hcell & Hcol & _ & He & -> & ->)]
    %propagate_neighbor_inv.
  { split; [apply frame_refl | done]. }
  pose proof Hcell as (Hx & Hy & _)%get_cell_Ok.
  assert (Hf : frame s
    (mkWfc (tiles s) (constraints s) (cols s) (rows s) (seed s)
       (put_cell (grid s) nx ny
          (Cell.mk (domain_after (tiles s) (narrowed allowed nCell)) false
             (Cell.value nCell)))
       e' (collapsed s)
       (conflicts_after (conflicts s) (nx, ny) (narrowed allowed nCell)))).
  { split; simpl; try done.
    - intros x y. destruct (decide ((x, y) = (nx, ny))) as [[= -> ->]|Hne].
      + rewrite Hcell, (get_put_eq _ _ _ _ _ Hcell). simpl.
        rewrite Hcol. by repeat split.
      + rewrite get_put_ne by done. apply cell_kept_refl.
    - intros ? ?. apply shape_put. }
  split; [done|]. intros Hch.
  assert (Hch' : changed_ok
    (mkWfc (tiles s) (constraints s) (cols s) (rows s) (seed s)
       (put_cell (grid s) nx ny
          (Cell.mk (domain_after (tiles s) (narrowed allowed nCell)) false
             (Cell.value nCell)))
       e' (collapsed s)
       (conflicts_after (conflicts s) (nx, ny) (narrowed allowed nCell)))
    (ch ++ [(nx, ny)])).
  { intros p [Hp | ->%list_elem_of_singleton]%elem_of_app.
    - by apply (changed_ok_frame s _ ch Hf).
    - simpl. rewrite (get_put_eq _ _ _ _ _ Hcell). eauto. }
  case_bool_decide; [done|].
  intros p Hp. apply Hch'. apply elem_of_app; auto.
Qed.

Lemma propagate_pass_frame s x y tile s' ch :
  propagate_pass s x y tile = Ok (s', ch) -> frame s s' /\ changed_ok s' ch.
Proof.
  unfold propagate_pass. intros H.
  apply (foldlM_inv (fun a => frame s a.1 /\ changed_ok a.1 a.2) _ _ _ _) in H.
  - done.
  - intros [s1 ch1] nb [s2 ch2] _ [Hf Hch] Hstep. simpl in *.
    apply propagate_neighbor_frame in Hstep as [Hf' Hch'].
    split; [by eapply frame_trans | auto].
  - split; [apply frame_refl|]. intros p Hp. by apply elem_of_nil in Hp.
Qed.

(** ** The recursive calls of [propagate] never do anything *)

(** Each recursive call is made on a coordinate taken from [changed], whose
    cell is not collapsed, so it leaves at the first line. *)
Lemma propagate_changed_noop fuel s ch :
  changed_ok s ch ->
  foldlM (fun s change => propagate (S fuel) s change.1 change.2) s ch = Ok s.
Proof.
  induction ch as [|p ch IH]; intros Hch; simpl; [done|].
  destruct (Hch p) as (c & Hc & Hcol); [apply elem_of_cons; auto|].
  rewrite Hc. simpl. rewrite Hcol. simpl.
  apply IH. intros q Hq. apply Hch, elem_of_cons. auto.
Qed.

(** With fuel for two nested calls, [propagate] is its first loop. *)
Lemma propagate_one_pass fuel s x y :
  propagate (S (S fuel)) s x y =
  (cell ← get_cell (grid s) x y;
   if negb (Cell.collapsed cell) then Ok s
   else '(s', _) ← propagate_pass s x y (Cell.value cell); Ok s').
Proof.
  change (propagate (S (S fuel)) s x y) with
    (cell ← get_cell (grid s) x y;
     if negb (Cell.collapsed cell) then Ok s
     else '(s', changed) ← propagate_pass s x y (Cell.value cell);
          foldlM (fun s change => propagate (S fuel) s change.1 change.2) s' changed).
  destruct (get_cell (grid s) x y) as [cell|]; simpl; [|done].
  destruct (Cell.collapsed cell); simpl; [|done].
  destruct (propagate_pass s x y (Cell.value cell)) as [[s' ch]|] eqn:Hp; simpl; [|done].
  apply propagate_changed_noop. by apply propagate_pass_frame in Hp as [_ ?].
Qed.

Lemma propagate_frame fuel s x y s' :
  propagate (S (S fuel)) s x y = Ok s' -> frame s s'.
Proof.
  rewrite propagate_one_pass. intros (cell & _ & H)%bind_Ok.
  destruct (negb (Cell.collapsed cell)); [injection H as <-; apply frame_refl|].
  apply bind_Ok in H as ([s1 ch] & Hp & [= <-]).
  by apply propagate_pass_frame in Hp as [? _].
Qed.

(** C10.  When the cell at the coordinate is not collapsed, [propagate]
    returns with the whole state unchanged: every cell, the entropy array
    and the conflicts. *)
Theorem propagate_uncollapsed_noop fuel s x y c :
  get_cell (grid s) x y = Ok c -> Cell.collapsed c = false ->
  propagate (S fuel) s x y = Ok s.
Proof. intros Hc Hcol. simpl. by rewrite Hc; simpl; rewrite Hcol. Qed.

(** ** The table of the program's catalogue *)

Lemma catalog_strings : all_strings catalog.
Proof.
  intros t Ht. unfold catalog in Ht.
  repeat (apply elem_of_cons in Ht as [->|Ht]; [eauto|]).
  by apply elem_of_nil in Ht.
Qed.







(** ** The conflicts *)

Lemma elem_of_remove_first k k' l :
  k' ∈ remove_first k l -> k' ∈ l.
Proof.
  induction l as [|a l IH]; simpl; [done|].
  case_bool_decide; rewrite !elem_of_cons; naive_solver.
Qed.



Lemma NoDup_remove_first k l : NoDup l -> NoDup (remove_first k l).
Proof.
  induction 1 as [|a l Ha Hl IH]; simpl; [constructor|].
  case_bool_decide; [done|]. constructor; [|done].
  intros Hin. by apply Ha, (elem_of_remove_first k).
Qed.

Lemma NoDup_conflicts_after ks k dom :
  NoDup ks -> NoDup (conflicts_after ks k dom).
Proof.
  intros Hks. unfold conflicts_after. repeat case_bool_decide; [done| |].
  - apply NoDup_app. split_and!; [done| |apply NoDup_singleton].
    intros x Hx ->%list_elem_of_singleton. done.
  - by apply NoDup_remove_first.
Qed.



(** ** The two keys *)

(** C7, as stated, fails at the origin: the two arguments of
    [new SeededRandom] are the same number there. *)
Lemma keys_coincide_at_origin : ~ (collapse_key 42 0 0 3 <> selector_key 42 3).
Proof. intros H. by apply H. Qed.

(** C7, amended.  At a coordinate of the grid, and for a seed small enough
    for the sums to be exact (the magnitudes of the seed, the two coordinate
    terms and the count add up to at most 2^53), the key of the collapse draw
    equals the key of the selector draw only at the origin: at every other
    coordinate the two keys differ. *)
Theorem keys_distinct_off_origin sd x y n :
  0 <= x -> 0 <= y ->
  Z.abs sd + x * 1000 + y * 100 + Z.of_nat n <= 2 ^ 53 ->
  collapse_key sd x y n = selector_key sd n <-> x = 0 /\ y = 0.
Proof. intros Hx Hy _. unfold collapse_key, selector_key. lia. Qed.

(** ** regenerate *)

(** C9, as stated, fails: negative dimensions and an empty catalogue are
    accepted, and the result is a grid without rows. *)
Lemma regenerate_accepts_invalid :
  (rows invalid_input < 0 /\ cols invalid_input < 0 /\ tiles invalid_input = []) /\
  regenerate invalid_input = Ok invalid_input /\
  ~ (exists e, regenerate invalid_input = Throw e).
Proof.
  split; [by repeat split|]. split; [reflexivity|]. by intros [e H].
Qed.

Lemma shape_fresh ts nrows ncols :
  shape ((fun _ => (fun _ => fresh_cell ts) <$> seqZ 0 ncols) <$> seqZ 0 nrows)
    nrows ncols.
Proof.
  split.
  - by rewrite length_fmap, length_seqZ.
  - apply Forall_fmap, Forall_forall. intros y _. simpl.
    by rewrite length_fmap, length_seqZ.
Qed.

Lemma get_cell_fresh ts nrows ncols x y c :
  get_cell ((fun _ => (fun _ => fresh_cell ts) <$> seqZ 0 ncols) <$> seqZ 0 nrows)
    x y = Ok c -> c = fresh_cell ts.
Proof.
  intros (_ & _ & row & Hrow & Hc)%get_cell_Ok.
  apply list_lookup_fmap_Some in Hrow as (y' & -> & _).
  by apply list_lookup_fmap_Some in Hc as (x' & -> & _).
Qed.

Lemma fresh_entropy_rows row (e : gmap Z (gmap Z nat)) l y :
  is_Some (foldl (fun e y => <[y := row]> e) e l !! y) <->
  y ∈ l \/ is_Some (e !! y).
Proof.
  revert e. induction l as [|a l IH]; intros e; simpl.
  - rewrite elem_of_nil. tauto.
  - rewrite IH, elem_of_cons. destruct (decide (a = y)) as [->|Hne].
    + rewrite lookup_insert_eq. split; [auto | intros _; right; eauto].
    + rewrite lookup_insert_ne by done. split; [tauto | intros [[?|?]|?]; auto; congruence].
Qed.

(** C9, amended.  [regenerate] never aborts, whatever the dimensions and
    the catalogue: it returns a grid of [rows] rows of [cols] cells, none at
    all when a dimension is zero or negative, every cell uncollapsed with the
    whole catalogue, empty or not, as its domain. *)
Theorem regenerate_total s :
  exists s', regenerate s = Ok s' /\
    shape (grid s') (rows s) (cols s) /\
    (forall x y c, get_cell (grid s') x y = Ok c -> c = fresh_cell (tiles s)) /\
    (rows s <= 0 -> grid s' = []) /\
    collapsed s' = false /\ conflicts s' = [].
Proof.
  eexists. split; [reflexivity|]. simpl.
  split; [apply shape_fresh|].
  split; [intros x y c; apply get_cell_fresh|].
  split; [|done]. intros Hr. by rewrite (seqZ_nil 0 (rows s)).
Qed.

(** ** Counting cells *)

Lemma NoDup_scan nrows ncols : NoDup (scan nrows ncols).
Proof.
  unfold scan. apply NoDup_bind.
  - intros y1 y2 p _ _ (x1 & -> & _)%list_elem_of_fmap (x2 & [= _ ->] & _)%list_elem_of_fmap.
    done.
  - intros y _. apply NoDup_fmap_2; [|apply NoDup_seqZ]. by intros ? ? [= ->].
  - apply NoDup_seqZ.
Qed.

Lemma filter_ext_in {A} (P Q : A -> Prop)
    `{!forall x, Decision (P x), !forall x, Decision (Q x)} (l : list A) :
  (forall x, x ∈ l -> P x <-> Q x) -> filter P l = filter Q l.
Proof.
  induction l as [|a l IH]; intros Hext; [done|].
  assert (Ha : P a <-> Q a) by (apply Hext, elem_of_cons; auto).
  assert (Hl : filter P l = filter Q l).
  { apply IH. intros x Hx. apply Hext, elem_of_cons. auto. }
  destruct (decide (P a)).
  - rewrite !filter_cons_True by tauto. by rewrite Hl.
  - rewrite !filter_cons_False by tauto. done.
Qed.

(** Turning the test on at one place of a duplicate-free list adds one to
    the count. *)
Lemma filter_flip {A} (P Q : A -> Prop)
    `{!forall x, Decision (P x), !forall x, Decision (Q x)} (l : list A) a :
  NoDup l -> a ∈ l -> ~ P a -> Q a -> (forall b, b <> a -> P b <-> Q b) ->
  length (filter Q l) = S (length (filter P l)).
Proof.
  intros Hnd Ha HP HQ Hiff. induction Hnd as [|b l Hb Hnd IH].
  - by apply elem_of_nil in Ha.
  - apply elem_of_cons in Ha as [<-|Ha].
    + rewrite filter_cons_True, filter_cons_False by done. simpl. f_equal.
      f_equal. apply filter_ext_in. intros c Hc. symmetry. apply Hiff.
      by intros ->.
    + assert (b <> a) by (by intros ->).
      destruct (decide (P b)) as [HPb|HPb].
      * rewrite !filter_cons_True by (done || by apply Hiff). simpl. by rewrite IH.
      * rewrite !filter_cons_False by (done || by rewrite <- Hiff). by apply IH.
Qed.

(** ** getStepCount *)

Lemma scan_cells s p :
  shape (grid s) (rows s) (cols s) -> p ∈ scan (rows s) (cols s) ->
  exists c, get_cell (grid s) p.1 p.2 = Ok c.
Proof.
  destruct p as [x y]. intros Hs [Hx Hy]%elem_of_scan. by eapply shape_get.
Qed.

Lemma count_loop g l n :
  (forall p, p ∈ l -> exists c, get_cell g p.1 p.2 = Ok c) ->
  foldlM (fun count p =>
            cell ← get_cell g p.1 p.2;
            Ok (if Cell.collapsed cell then S count else count)) n l =
  Ok (n + length (filter (fun p => cell_test Cell.collapsed g p = true) l))%nat.
Proof.
  revert n. induction l as [|p l IH]; intros n Hl; simpl.
  - f_equal. lia.
  - destruct (Hl p) as [c Hc]; [apply elem_of_cons; auto|].
    rewrite Hc. simpl. rewrite IH by (intros q Hq; apply Hl, elem_of_cons; auto).
    f_equal. destruct (Cell.collapsed c) eqn:Hcol.
    + rewrite filter_cons_True by (unfold cell_test; by rewrite Hc). simpl. lia.
    + rewrite filter_cons_False; [done|]. unfold cell_test. rewrite Hc. congruence.
Qed.

(** [getStepCount] returns the number of collapsed cells. *)
Lemma getStepCount_spec s :
  shape (grid s) (rows s) (cols s) ->
  getStepCount s = Ok (length (collapsed_cells s)).
Proof.
  intros Hs. unfold getStepCount. rewrite count_loop; [done|].
  intros p Hp. by apply scan_cells.
Qed.

(** ** The draws *)

Lemma SeededRandom_next_range key :
  0 <= key -> 0 <= SeededRandom_next key < 233280.
Proof. intros Hk. unfold SeededRandom_next. apply Z.rem_bound_pos; lia. Qed.

Lemma lookupZ_in_range {A} (l : list A) i :
  0 <= i < Z.of_nat (length l) -> exists a, lookupZ l i = Some a /\ a ∈ l.
Proof.
  intros Hi. destruct (lookup_lt_is_Some_2 l (Z.to_nat i)) as [a Ha]; [lia|].
  exists a. split; [apply lookupZ_Some; split; [lia|done]|].
  by eapply list_elem_of_lookup_2.
Qed.

Section SolverProperties.

(** The rounded product of [floor_scaled], see section [Solver]. *)
Variable floor_scaled : Z -> Z -> Z.

(** [random()] returns a double in [0, 1) when the seed of the generator is
    not negative, and the product of such a number with a positive length
    [n], rounded, is still below [n]: the index is one of the array. *)
Hypothesis floor_scaled_range :
  forall r n, 0 <= r < 233280 -> 0 < n -> 0 <= floor_scaled r n < n.

Lemma random_index_range key n :
  0 <= key -> (0 < n)%nat ->
  0 <= random_index floor_scaled key n < Z.of_nat n.
Proof.
  intros Hk Hn. unfold random_index.
  apply floor_scaled_range; [by apply SeededRandom_next_range | lia].
Qed.

(** ** collapseCell *)

(** C6, amended.  In a state with its arrays allocated and a seed in the
    range the seed field declares, for a coordinate of the grid:
    [collapseCell] returns [false] and the state is unchanged when the cell
    is collapsed or its domain is empty; otherwise it returns [true], the
    cell has become collapsed with one tile of its former domain as its
    whole domain and as its value, and every other cell is as it was. *)
Theorem collapseCell_spec s x y c :
  allocated s -> declared_seed (seed s) ->
  get_cell (grid s) x y = Ok c ->
  (Cell.collapsed c = true \/ Cell.possible c = [] ->
   collapseCell floor_scaled s x y = Ok (false, s)) /\
  (Cell.collapsed c = false -> Cell.possible c <> [] ->
   exists t s',
     collapseCell floor_scaled s x y = Ok (true, s') /\
     t ∈ Cell.possible c /\
     get_cell (grid s') x y = Ok (Cell.mk [t] true t) /\
     forall x' y', (x', y') <> (x, y) ->
       get_cell (grid s') x' y' = get_cell (grid s) x' y').
Proof.
  intros [Hshape Hent] [Hseed _] Hc. unfold collapseCell. rewrite Hc. simpl. split.
  - intros [-> | ->]; [done|]. simpl. by rewrite orb_true_r.
  - intros Hcol Hne. rewrite Hcol. simpl.
    rewrite bool_decide_eq_false_2 by (by destruct (Cell.possible c)).
    rewrite getStepCount_spec by done. simpl.
    pose proof (get_shape _ _ _ _ _ _ Hshape Hc) as [Hx Hy].
    destruct (Hent y Hy) as [row Hrow]. unfold write_entropy. rewrite Hrow. simpl.
    destruct (lookupZ_in_range (Cell.possible c)
      (random_index floor_scaled
         (collapse_key (seed s) x y (length (collapsed_cells s)))
         (length (Cell.possible c)))) as (t & Ht & Hin).
    { apply random_index_range.
      - unfold collapse_key. lia.
      - destruct (Cell.possible c); [done | simpl; lia]. }
    rewrite Ht. simpl. exists t. eexists. split; [done|]. simpl.
    split; [done|]. split; [by eapply get_put_eq|].
    intros x' y' Hne'. apply get_put_ne; [lia | lia | done].
Qed.

(** ** getLowestEntropy *)

Lemma exists_min {A} (sz : A -> nat) (l : list A) :
  l <> [] -> exists a, a ∈ l /\ Forall (fun b => (sz a <= sz b)%nat) l.
Proof.
  induction l as [|a l IH]; [done|]. intros _.
  destruct l as [|b l].
  - exists a. split; [apply elem_of_cons; auto|]. by repeat constructor.
  - destruct IH as (m & Hm & Hmin); [done|].
    destruct (decide (sz a <= sz m)%nat) as [Hle|Hgt].
    + exists a. split; [apply elem_of_cons; auto|].
      constructor; [done|]. eapply Forall_impl; [exact Hmin|]. simpl. lia.
    + exists m. split; [apply elem_of_cons; auto|]. constructor; [lia|done].
Qed.

Lemma elem_of_argmins {A} (sz : A -> nat) (l : list A) a :
  a ∈ argmins sz l <-> a ∈ l /\ forall b, b ∈ l -> (sz a <= sz b)%nat.
Proof. unfold argmins. rewrite list_elem_of_filter, Forall_forall. tauto. Qed.

Lemma argmins_nil {A} (sz : A -> nat) (l : list A) :
  argmins sz l = [] <-> l = [].
Proof.
  split; [|by intros ->]. intros Hnil.
  destruct (decide (l = [])) as [|Hne]; [done|].
  destruct (exists_min sz l Hne) as (a & Ha & Hmin).
  assert (Hin : a ∈ argmins sz l).
  { apply elem_of_argmins. split; [done|]. by apply Forall_forall. }
  rewrite Hnil in Hin. by apply elem_of_nil in Hin.
Qed.

Lemma filter_False {A} (l : list A) : filter (fun _ => False) l = [].
Proof. induction l as [|a l IH]; [done|]. rewrite filter_cons_False; tauto. Qed.

(** What one more element does to the minimal members. *)
Lemma argmins_snoc {A} (sz : A -> nat) (l : list A) a :
  argmins sz (l ++ [a]) =
  match head (argmins sz l) with
  | None => [a]
  | Some b =>
      if decide (sz a < sz b)%nat then [a]
      else if decide (sz a = sz b) then argmins sz l ++ [a]
      else argmins sz l
  end.
Proof.
  destruct (argmins sz l) as [|b bs] eqn:Hb; simpl.
  { apply argmins_nil in Hb as ->. unfold argmins. simpl.
    rewrite filter_cons_True; [done|]. by repeat constructor. }
  assert (Hbmin : b ∈ l /\ forall c, c ∈ l -> (sz b <= sz c)%nat).
  { apply elem_of_argmins. rewrite Hb. apply elem_of_cons. auto. }
  destruct Hbmin as [Hbl Hbmin].
  unfold argmins at 1. rewrite filter_app.
  destruct (decide (sz a < sz b)%nat) as [Hlt|Hge].
  - rewrite (filter_cons_True _ a).
    2:{ apply Forall_app. split; [|by repeat constructor].
        apply Forall_forall. intros c Hc. specialize (Hbmin c Hc). lia. }
    rewrite (filter_ext_in _ (fun _ => False) l), filter_False; [done|].
    intros c Hc. rewrite Forall_app, Forall_singleton.
    specialize (Hbmin c Hc). split; [lia | done].
  - assert (Hl : filter (fun x => Forall (fun y => (sz x <= sz y)%nat) (l ++ [a])) l
                 = argmins sz l).
    { apply filter_ext_in. intros c Hc. rewrite Forall_app, Forall_singleton.
      split; [tauto|]. intros Hmin. split; [done|].
      pose proof (proj1 (Forall_forall _ _) Hmin b Hbl) as Hcb. simpl in Hcb. lia. }
    rewrite Hl, Hb. destruct (decide (sz a = sz b)) as [Heq|Hne].
    + rewrite filter_cons_True; [done|].
      apply Forall_app. split; [|by repeat constructor].
      apply Forall_forall. intros c Hc. specialize (Hbmin c Hc). lia.
    + rewrite filter_cons_False; [by rewrite app_nil_r|].
      intros [Hmin _]%Forall_app.
      pose proof (proj1 (Forall_forall _ _) Hmin b Hbl) as Hcb. simpl in Hcb. lia.
Qed.

Lemma lowest_step_spec g el p c :
  get_cell g p.1 p.2 = Ok c ->
  lowest_step g (min_of (domain_size g) el, argmins (domain_size g) el) p =
  Ok (if eligible g p
      then (min_of (domain_size g) (el ++ [p]), argmins (domain_size g) (el ++ [p]))
      else (min_of (domain_size g) el, argmins (domain_size g) el)).
Proof.
  intros Hc. unfold lowest_step, eligible, cell_test. rewrite Hc. simpl.
  destruct (Cell.collapsed c); simpl; [done|].
  case_bool_decide as Hlen; simpl; [done|].
  assert (Hsz : domain_size g p = length (Cell.possible c)).
  { unfold domain_size. by rewrite Hc. }
  unfold min_of. rewrite argmins_snoc, Hsz.
  destruct (head (argmins (domain_size g) el)) as [b|] eqn:Hhead; simpl.
  - destruct (decide (length (Cell.possible c) < domain_size g b)%nat) as [H1|H1].
    { rewrite bool_decide_eq_true_2 by done. simpl. by rewrite Hsz. }
    rewrite bool_decide_eq_false_2 by done.
    destruct (decide (length (Cell.possible c) = domain_size g b)) as [H2|H2].
    + rewrite bool_decide_eq_true_2 by done. do 2 f_equal.
      destruct (argmins (domain_size g) el); [done|]. simpl in *. congruence.
    + rewrite bool_decide_eq_false_2 by done. by rewrite Hhead.
  - by rewrite Hsz.
Qed.

Lemma lowest_loop g l :
  (forall p, p ∈ l -> exists c, get_cell g p.1 p.2 = Ok c) ->
  foldlM (lowest_step g) (None, []) l =
  Ok (min_of (domain_size g) (filter (fun p => eligible g p = true) l),
      argmins (domain_size g) (filter (fun p => eligible g p = true) l)).
Proof.
  induction l as [|p l IH] using rev_ind; intros Hl; [done|].
  rewrite foldlM_snoc, IH by (intros q Hq; apply Hl, elem_of_app; auto).
  destruct (Hl p) as [c Hc]; [apply elem_of_app; right; by apply list_elem_of_singleton|].
  change (lowest_step g (min_of (domain_size g) (filter (fun p => eligible g p = true) l),
                         argmins (domain_size g) (filter (fun p => eligible g p = true) l)) p
          = Ok (min_of (domain_size g) (filter (fun p => eligible g p = true) (l ++ [p])),
                argmins (domain_size g) (filter (fun p => eligible g p = true) (l ++ [p])))).
  rewrite (lowest_step_spec _ _ _ c Hc). rewrite filter_app.
  destruct (eligible g p) eqn:He.
  - by rewrite (filter_cons_True _ p) by done.
  - rewrite (filter_cons_False _ p) by congruence. by rewrite app_nil_r.
Qed.

Lemma eligible_spec g p :
  eligible g p = true <->
  exists c, get_cell g p.1 p.2 = Ok c /\
            Cell.collapsed c = false /\ Cell.possible c <> [].
Proof.
  unfold eligible, cell_test. destruct (get_cell g p.1 p.2) as [c|]; split.
  - intros [Hcol Hne]%andb_prop. exists c. split; [done|].
    split; [by destruct (Cell.collapsed c)|].
    intros Hnil. apply negb_true_iff, bool_decide_eq_false in Hne.
    by rewrite Hnil in Hne.
  - intros (c' & [= <-] & Hcol & Hne). rewrite Hcol. simpl.
    apply negb_true_iff, bool_decide_eq_false. by destruct (Cell.possible c).
  - done.
  - by intros (c' & [=] & _).
Qed.

Lemma elem_of_eligible s x y :
  shape (grid s) (rows s) (cols s) ->
  (x, y) ∈ filter (fun p => eligible (grid s) p = true) (scan (rows s) (cols s)) <->
  exists c, get_cell (grid s) x y = Ok c /\
            Cell.collapsed c = false /\ Cell.possible c <> [].
Proof.
  intros Hs. rewrite list_elem_of_filter, eligible_spec. simpl. split; [tauto|].
  intros (c & Hc & H). split; [eauto|].
  apply elem_of_scan. by eapply get_shape.
Qed.

(** C5, amended.  In a state whose grid has the allocated shape and whose
    seed is in the range the seed field declares, [getLowestEntropy]
    returns.  The candidates are the uncollapsed cells with a nonempty
    domain whose domain size is minimal among such cells, listed in
    row-major scan order, and the result is the candidate at the index drawn
    from the key (seed + number of collapsed cells), this for a key the
    generator treats without rounding.  The result is none exactly when
    every cell is collapsed or has an empty domain; a returned coordinate is
    a candidate. *)
Theorem getLowestEntropy_spec s :
  shape (grid s) (rows s) (cols s) -> declared_seed (seed s) ->
  (exact_key (selector_key (seed s) (length (collapsed_cells s))) ->
   getLowestEntropy floor_scaled s =
     Ok (if bool_decide (lowest_entropy_cells s = []) then None
         else lookupZ (lowest_entropy_cells s)
                (random_index floor_scaled
                   (selector_key (seed s) (length (collapsed_cells s)))
                   (length (lowest_entropy_cells s))))) /\
  (getLowestEntropy floor_scaled s = Ok None <->
   forall x y c, get_cell (grid s) x y = Ok c ->
     Cell.collapsed c = true \/ Cell.possible c = []) /\
  (forall x y, getLowestEntropy floor_scaled s = Ok (Some (x, y)) ->
     (x, y) ∈ lowest_entropy_cells s /\
     exists c, get_cell (grid s) x y = Ok c /\
       Cell.collapsed c = false /\ Cell.possible c <> [] /\
       forall x' y' c', get_cell (grid s) x' y' = Ok c' ->
         Cell.collapsed c' = false -> Cell.possible c' <> [] ->
         (length (Cell.possible c) <= length (Cell.possible c'))%nat).
Proof.
  intros Hs [Hseed _].
  assert (Hres : getLowestEntropy floor_scaled s =
    Ok (if bool_decide (lowest_entropy_cells s = []) then None
        else lookupZ (lowest_entropy_cells s)
               (random_index floor_scaled
                  (selector_key (seed s) (length (collapsed_cells s)))
                  (length (lowest_entropy_cells s))))).
  { unfold getLowestEntropy.
    rewrite lowest_loop by (intros p Hp; by apply scan_cells). simpl.
    fold (lowest_entropy_cells s).
    destruct (lowest_entropy_cells s) as [|p cands]; [done|].
    rewrite !bool_decide_eq_false_2 by done.
    by rewrite getStepCount_spec. }
  assert (Hpick : lowest_entropy_cells s <> [] ->
    exists p, p ∈ lowest_entropy_cells s /\ getLowestEntropy floor_scaled s = Ok (Some p)).
  { intros Hne. rewrite Hres, bool_decide_eq_false_2 by done.
    destruct (lookupZ_in_range (lowest_entropy_cells s)
      (random_index floor_scaled
         (selector_key (seed s) (length (collapsed_cells s)))
         (length (lowest_entropy_cells s)))) as (p & -> & Hp); [|eauto].
    apply random_index_range; [unfold selector_key; lia|].
    destruct (lowest_entropy_cells s); [done | simpl; lia]. }
  split; [intros _; exact Hres|]. split.
  - split.
    + intros Hnone x y c Hc.
      destruct (decide (lowest_entropy_cells s = [])) as [Hnil|Hne].
      * apply argmins_nil in Hnil.
        destruct (Cell.collapsed c) eqn:Hcol; [by left|]. right.
        destruct (Cell.possible c) eqn:Hpos; [done|]. exfalso.
        assert (Hin : (x, y) ∈ filter (fun p => eligible (grid s) p = true)
                                 (scan (rows s) (cols s))).
        { apply elem_of_eligible; [done|]. exists c. by rewrite Hpos. }
        rewrite Hnil in Hin. by apply elem_of_nil in Hin.
      * destruct (Hpick Hne) as (p & _ & Hp). congruence.
    + intros Hall. rewrite Hres, bool_decide_eq_true_2; [done|].
      apply argmins_nil.
      destruct (filter _ (scan (rows s) (cols s))) as [|[x y] l] eqn:Hel; [done|].
      assert (Hin : (x, y) ∈ filter (fun p => eligible (grid s) p = true)
                               (scan (rows s) (cols s))).
      { rewrite Hel. apply elem_of_cons. auto. }
      apply elem_of_eligible in Hin as (c & Hc & Hcol & Hpos); [|done].
      destruct (Hall x y c Hc); congruence.
  - intros x y Hsome.
    assert (Hin : (x, y) ∈ lowest_entropy_cells s).
    { destruct (decide (lowest_entropy_cells s = [])) as [Hnil|Hne].
      - rewrite Hres, bool_decide_eq_true_2 in Hsome by done. done.
      - destruct (Hpick Hne) as (p & Hp & Hp'). congruence. }
    split; [done|].
    apply elem_of_argmins in Hin as [Hel Hmin].
    apply elem_of_eligible in Hel as (c & Hc & Hcol & Hpos); [|done].
    exists c. split_and!; try done.
    intros x' y' c' Hc' Hcol' Hpos'.
    assert (Hin' : (x', y') ∈ filter (fun p => eligible (grid s) p = true)
                                (scan (rows s) (cols s))).
    { apply elem_of_eligible; [done|]. eauto. }
    apply Hmin in Hin'. unfold domain_size in Hin'. simpl in Hin'.
    by rewrite Hc, Hc' in Hin'.
Qed.

(** When the selector answers none in such a state, no cell is left to
    collapse. *)
Lemma getLowestEntropy_None_all s :
  shape (grid s) (rows s) (cols s) -> 0 <= seed s ->
  getLowestEntropy floor_scaled s = Ok None ->
  forall x y c, get_cell (grid s) x y = Ok c ->
    Cell.collapsed c = true \/ Cell.possible c = [].
Proof.
  intros Hs Hseed Hlow x y c Hc. unfold getLowestEntropy in Hlow.
  rewrite lowest_loop in Hlow by (intros p Hp; by apply scan_cells).
  simpl in Hlow. fold (lowest_entropy_cells s) in Hlow.
  destruct (decide (lowest_entropy_cells s = [])) as [Hnil|Hne].
  - apply argmins_nil in Hnil.
    destruct (Cell.collapsed c) eqn:Hcol; [by left|]. right.
    destruct (Cell.possible c) eqn:Hpos; [done|]. exfalso.
    assert (Hin : (x, y) ∈ filter (fun p => eligible (grid s) p = true)
                             (scan (rows s) (cols s))).
    { apply elem_of_eligible; [done|]. exists c. by rewrite Hpos. }
    rewrite Hnil in Hin. by apply elem_of_nil in Hin.
  - exfalso. rewrite bool_decide_eq_false_2 in Hlow
      by (by destruct (lowest_entropy_cells s)).
    rewrite getStepCount_spec in Hlow by done. simpl in Hlow.
    destruct (lookupZ_in_range (lowest_entropy_cells s)
      (random_index floor_scaled
         (selector_key (seed s) (length (collapsed_cells s)))
         (length (lowest_entropy_cells s)))) as (p & Hp & _); [|congruence].
    apply random_index_range; [unfold selector_key; lia|].
    destruct (lowest_entropy_cells s); [done | simpl; lia].
Qed.

(** ** Steps keep the state well formed *)

Lemma same_rows_allocated s s' :
  allocated s -> rows s' = rows s -> cols s' = cols s ->
  shape (grid s') (rows s) (cols s) -> same_rows (entropy s) (entropy s') ->
  allocated s'.
Proof.
  intros [_ Hent] Hr Hc Hshape Hrows. split; rewrite Hr, ?Hc; [done|].
  intros y Hy. apply Hrows. auto.
Qed.

(** What a successful [collapseCell] does, spelled out. *)
Lemma collapseCell_eligible s x y c :
  allocated s -> 0 <= seed s ->
  get_cell (grid s) x y = Ok c ->
  Cell.collapsed c = false -> Cell.possible c <> [] ->
  exists t e',
    t ∈ Cell.possible c /\ same_rows (entropy s) e' /\
    collapseCell floor_scaled s x y =
    Ok (true,
        mkWfc (tiles s) (constraints s) (cols s) (rows s) (seed s)
          (put_cell (grid s) x y (Cell.mk [t] true t)) e'
          (collapsed s) (conflicts s)).
Proof.
  intros [Hshape Hent] Hseed Hc Hcol Hne. unfold collapseCell.
  rewrite Hc. simpl. rewrite Hcol. simpl.
  rewrite bool_decide_eq_false_2 by (by destruct (Cell.possible c)).
  rewrite getStepCount_spec by done. simpl.
  pose proof (get_shape _ _ _ _ _ _ Hshape Hc) as [Hx Hy].
  destruct (Hent y Hy) as [row Hrow].
  destruct (write_entropy (entropy s) x y 0%nat) as [e'|] eqn:He';
    [|by unfold write_entropy in He'; rewrite Hrow in He'].
  destruct (lookupZ_in_range (Cell.possible c)
    (random_index floor_scaled
       (collapse_key (seed s) x y (length (collapsed_cells s)))
       (length (Cell.possible c)))) as (t & Ht & Hin).
  { apply random_index_range.
    - unfold collapse_key. lia.
    - destruct (Cell.possible c); [done | simpl; lia]. }
  rewrite Ht. simpl. exists t, e'. split; [done|].
  split; [by eapply write_entropy_rows | done].
Qed.

(** [collapseCell] answers [true] only for a cell it could collapse. *)
Lemma collapseCell_true_inv s x y s' :
  collapseCell floor_scaled s x y = Ok (true, s') ->
  exists c, get_cell (grid s) x y = Ok c /\
            Cell.collapsed c = false /\ Cell.possible c <> [].
Proof.
  unfold collapseCell. intros (c & Hc & H)%bind_Ok. exists c. split; [done|].
  destruct (Cell.collapsed c); simpl in H; [done|].
  case_bool_decide as Hlen; simpl in H; [done|].
  split; [done|]. intros Hnil. by rewrite Hnil in Hlen.
Qed.

Lemma wf_collapse s x y c t e' :
  wf s -> get_cell (grid s) x y = Ok c ->
  Cell.collapsed c = false -> t ∈ Cell.possible c ->
  same_rows (entropy s) e' ->
  wf (mkWfc (tiles s) (constraints s) (cols s) (rows s) (seed s)
        (put_cell (grid s) x y (Cell.mk [t] true t)) e'
        (collapsed s) (conflicts s)).
Proof.
  intros [Hal Hseed Htab Hcells] Hc Hcol Ht Hrows.
  pose proof Hc as (Hx & Hy & _)%get_cell_Ok.
  split; simpl; try done.
  - eapply (same_rows_allocated s); simpl; try done.
    apply shape_put, Hal.
  - intros x' y' c'. destruct (decide ((x', y') = (x, y))) as [[= -> ->]|Hne].
    + rewrite (get_put_eq _ _ _ _ _ Hc). intros [= <-]. simpl.
      split; [done|]. specialize (Hcells x y c Hc). rewrite Hcol in Hcells. auto.
    + rewrite get_put_ne by done. apply Hcells.
Qed.

Lemma wf_neighbor tile s ch nb s' ch' :
  wf s -> propagate_neighbor tile (s, ch) nb = Ok (s', ch') -> wf s'.
Proof.
  destruct nb as [[nx ny] dir]. intros Hwf Hstep.
  pose proof Hstep as
    [(-> & _) | (nCell & allowed & e' & Hb & Hcell & Hcol & _ & He & _ & ->)]
    %propagate_neighbor_inv; [done|].
  destruct Hwf as [Hal Hseed Htab Hcells].
  pose proof Hcell as (Hx & Hy & _)%get_cell_Ok.
  split; simpl; try done.
  - eapply (same_rows_allocated s); simpl; try done.
    apply shape_put, Hal.
  - intros x' y' c'. destruct (decide ((x', y') = (nx, ny))) as [[= -> ->]|Hne].
    + rewrite (get_put_eq _ _ _ _ _ Hcell). intros [= <-]. simpl.
      unfold domain_after. case_bool_decide; [done|].
      specialize (Hcells nx ny nCell Hcell). rewrite Hcol in Hcells.
      intros t [_ Ht]%list_elem_of_filter. auto.
    + rewrite get_put_ne by done. apply Hcells.
Qed.

(** A well-formed state lets one pass of [propagate] run to its end. *)
Lemma propagate_pass_total s x y tile :
  wf s -> tile ∈ tiles s ->
  exists s' ch, propagate_pass s x y tile = Ok (s', ch) /\ wf s'.
Proof.
  intros Hwf Htile. unfold propagate_pass.
  destruct (foldlM_total (fun a => wf a.1 /\ tiles a.1 = tiles s)
              (propagate_neighbor tile) (neighbors x y) (s, []))
    as ([s' ch] & Hr & Hwf' & _); [|done|eauto].
  intros [s1 ch1] [[nx ny] dir] _ [Hwf1 Hts]. simpl in *.
  destruct (propagate_neighbor_total tile s1 ch1 nx ny dir) as [[s2 ch2] Hstep].
  - intros Hb. unfold in_bounds in Hb.
    eapply shape_get; [apply Hwf1 | lia | lia].
  - intros Hb. unfold in_bounds in Hb. apply Hwf1. lia.
  - apply Hwf1. by rewrite Hts.
  - exists (s2, ch2). split; [done|]. simpl. split; [by eapply wf_neighbor|].
    apply propagate_neighbor_frame in Hstep as [Hf _].
    by rewrite (frame_tiles _ _ Hf).
Qed.

Lemma propagate_total fuel s x y c :
  wf s -> get_cell (grid s) x y = Ok c ->
  exists s', propagate (S (S fuel)) s x y = Ok s' /\ wf s' /\ frame s s'.
Proof.
  intros Hwf Hc. rewrite propagate_one_pass, Hc. simpl.
  destruct (Cell.collapsed c) eqn:Hcol; simpl.
  - destruct (propagate_pass_total s x y (Cell.value c)) as (s' & ch & Hp & Hwf');
      [done| |].
    { pose proof (wf_cells _ Hwf x y c Hc) as H. rewrite Hcol in H. tauto. }
    rewrite Hp. simpl. exists s'. split; [done|]. split; [done|].
    by apply propagate_pass_frame in Hp as [? _].
  - exists s. split; [done|]. split; [done | apply frame_refl].
Qed.

(** ** Counting along a step *)

Lemma frame_cell_test s s' (P : Cell.t -> bool) p :
  frame s s' ->
  (forall c c', Cell.collapsed c' = Cell.collapsed c -> P c' = P c) ->
  cell_test P (grid s') p = cell_test P (grid s) p.
Proof.
  intros Hf HP. pose proof (frame_grid _ _ Hf p.1 p.2) as Hk. unfold cell_test.
  destruct (get_cell (grid s) p.1 p.2) as [c|], (get_cell (grid s') p.1 p.2) as [c'|];
    try done.
  destruct Hk as (Hcol & _). by apply HP.
Qed.

Lemma frame_counts s s' :
  frame s s' ->
  collapsed_cells s' = collapsed_cells s /\
  uncollapsed_cells s' = uncollapsed_cells s.
Proof.
  intros Hf. unfold collapsed_cells, uncollapsed_cells.
  rewrite (frame_rows _ _ Hf), (frame_cols _ _ Hf). split.
  - apply list_filter_iff. intros p.
    rewrite (frame_cell_test s s' _ p Hf); [done|]. auto.
  - apply list_filter_iff. intros p.
    rewrite (frame_cell_test s s' _ p Hf); [done|]. by intros c c' ->.
Qed.

Lemma collapse_counts s x y c c' e' :
  shape (grid s) (rows s) (cols s) ->
  get_cell (grid s) x y = Ok c ->
  Cell.collapsed c = false -> Cell.collapsed c' = true ->
  let s' := mkWfc (tiles s) (constraints s) (cols s) (rows s) (seed s)
              (put_cell (grid s) x y c') e' (collapsed s) (conflicts s) in
  length (collapsed_cells s') = S (length (collapsed_cells s)) /\
  length (uncollapsed_cells s) = S (length (uncollapsed_cells s')).
Proof.
  intros Hs Hc Hcol Hcol' s'.
  pose proof Hc as (Hx & Hy & _)%get_cell_Ok.
  assert (Hin : (x, y) ∈ scan (rows s) (cols s)).
  { apply elem_of_scan. by eapply get_shape. }
  assert (Hat : forall P, cell_test P (grid s') (x, y) = P c').
  { intros P. unfold cell_test. simpl. by rewrite (get_put_eq _ _ _ _ _ Hc). }
  assert (Hat0 : forall P, cell_test P (grid s) (x, y) = P c).
  { intros P. unfold cell_test. simpl. by rewrite Hc. }
  assert (Hoff : forall P p, p <> (x, y) ->
                   cell_test P (grid s') p = cell_test P (grid s) p).
  { intros P [x' y'] Hne. unfold cell_test. simpl. by rewrite get_put_ne. }
  unfold collapsed_cells, uncollapsed_cells. simpl. split.
  - apply (filter_flip _ _ _ (x, y)); [apply NoDup_scan | done | | |].
    + rewrite Hat0. congruence.
    + by rewrite Hat.
    + intros p Hp. by rewrite Hoff.
  - apply (filter_flip _ _ _ (x, y)); [apply NoDup_scan | done | | |].
    + rewrite Hat, Hcol'. simpl. congruence.
    + by rewrite Hat0, Hcol.
    + intros p Hp. by rewrite Hoff.
Qed.

Lemma length_scan nrows ncols :
  length (scan nrows ncols) = (Z.to_nat nrows * Z.to_nat ncols)%nat.
Proof.
  unfold scan. rewrite <- (length_seqZ 0 nrows).
  induction (seqZ 0 nrows) as [|y l IH]; [done|].
  change (length (((fun x => (x, y)) <$> seqZ 0 ncols) ++
                  (l ≫= fun y => (fun x => (x, y)) <$> seqZ 0 ncols)) =
          (S (length l) * Z.to_nat ncols)%nat).
  rewrite length_app, IH, length_fmap, length_seqZ. lia.
Qed.

(** ** A fresh grid *)

Lemma regenerate_wf s0 s1 :
  (forall t, t ∈ tiles s0 -> is_Some (constraints s0 !! to_key t)) ->
  0 <= seed s0 -> regenerate s0 = Ok s1 ->
  wf s1 /\ collapsed s1 = false /\ collapsed_cells s1 = [] /\
  rows s1 = rows s0 /\ cols s1 = cols s0.
Proof.
  intros Htab Hseed [= <-]. split_and!; try done.
  - split; simpl; try done.
    + split; simpl; [apply shape_fresh|].
      intros y Hy. apply fresh_entropy_rows. left. apply elem_of_seqZ. lia.
    + intros x y c ->%get_cell_fresh. simpl. by intros t Ht.
  - unfold collapsed_cells. simpl.
    rewrite (filter_ext_in _ (fun _ => False)), filter_False; [done|].
    intros p _. unfold cell_test. simpl. split; [|done].
    destruct (get_cell _ p.1 p.2) as [c|] eqn:Hc; [|done].
    by apply get_cell_fresh in Hc as ->.
Qed.

(** ** propagate, whatever the fuel *)

Lemma propagate_changed_inv fuel s ch s' :
  changed_ok s ch ->
  foldlM (fun s change => propagate fuel s change.1 change.2) s ch = Ok s' ->
  s' = s.
Proof.
  intros Hch. destruct fuel as [|fuel].
  - destruct ch as [|p ch]; simpl; [by intros [= <-] | done].
  - rewrite propagate_changed_noop by done. by intros [= <-].
Qed.

Lemma propagate_frame_any fuel s x y s' :
  propagate fuel s x y = Ok s' -> frame s s'.
Proof.
  destruct fuel as [|fuel]; simpl; [done|].
  intros (cell & _ & H)%bind_Ok.
  destruct (negb (Cell.collapsed cell)); [injection H as <-; apply frame_refl|].
  apply bind_Ok in H as ([s1 ch] & Hp & H).
  apply propagate_pass_frame in Hp as [Hf Hch].
  by apply propagate_changed_inv in H as ->.
Qed.

(** ** One step *)

Lemma collapseCell_true_shape s x y s' :
  collapseCell floor_scaled s x y = Ok (true, s') ->
  exists c c' e',
    get_cell (grid s) x y = Ok c /\ Cell.collapsed c = false /\
    Cell.collapsed c' = true /\
    s' = mkWfc (tiles s) (constraints s) (cols s) (rows s) (seed s)
           (put_cell (grid s) x y c') e' (collapsed s) (conflicts s).
Proof.
  unfold collapseCell. intros (c & Hc & H)%bind_Ok. exists c.
  destruct (Cell.collapsed c); simpl in H; [done|].
  case_bool_decide as Hlen; simpl in H; [done|].
  apply bind_Ok in H as (n & _ & H). apply bind_Ok in H as (e' & _ & [= <-]).
  eexists (Cell.mk _ true _), e'. split_and!; [done | done | done | reflexivity].
Qed.

Lemma collapseStep_Some fuel s x y b s1 s2 :
  getLowestEntropy floor_scaled s = Ok (Some (x, y)) ->
  collapseCell floor_scaled s x y = Ok (b, s1) ->
  propagate fuel s1 x y = Ok s2 ->
  collapseStep floor_scaled fuel s = Ok s2.
Proof.
  intros H1 H2 H3. unfold collapseStep. rewrite H1. simpl. rewrite H2. exact H3.
Qed.

(** A step in a well-formed state returns.  Either the selector found
    nothing and the solver is marked complete, or one more cell is
    collapsed. *)
Lemma collapseStep_progress fuel s :
  wf s ->
  (getLowestEntropy floor_scaled s = Ok None /\
   collapseStep floor_scaled (S (S fuel)) s = Ok (set_collapsed s true)) \/
  (exists s',
     collapseStep floor_scaled (S (S fuel)) s = Ok s' /\ wf s' /\
     collapsed s' = collapsed s /\
     rows s' = rows s /\ cols s' = cols s /\
     length (collapsed_cells s') = S (length (collapsed_cells s)) /\
     length (uncollapsed_cells s) = S (length (uncollapsed_cells s'))).
Proof.
  intros Hwf. pose proof (wf_allocated _ Hwf) as Hal.
  pose proof (wf_seed _ Hwf) as Hseed.
  destruct (getLowestEntropy floor_scaled s) as [[[x y]|]|e] eqn:Hlow.
  - right.
    assert (Hel : (x, y) ∈ lowest_entropy_cells s).
    { destruct (decide (lowest_entropy_cells s = [])) as [Hnil|Hne].
      - unfold getLowestEntropy in Hlow.
        rewrite lowest_loop in Hlow by (intros p Hp; apply scan_cells; [apply Hal|done]).
        simpl in Hlow. fold (lowest_entropy_cells s) in Hlow. by rewrite Hnil in Hlow.
      - unfold getLowestEntropy in Hlow.
        rewrite lowest_loop in Hlow by (intros p Hp; apply scan_cells; [apply Hal|done]).
        simpl in Hlow. fold (lowest_entropy_cells s) in Hlow.
        case_bool_decide; [done|]. rewrite getStepCount_spec in Hlow by apply Hal.
        simpl in Hlow. injection Hlow as Hlow.
        apply lookupZ_Some in Hlow as [_ Hlow]. by eapply list_elem_of_lookup_2. }
    apply elem_of_argmins in Hel as [Hel _].
    apply elem_of_eligible in Hel as (c & Hc & Hcol & Hpos); [|apply Hal].
    destruct (collapseCell_eligible s x y c Hal Hseed Hc Hcol Hpos)
      as (t & e' & Ht & Hrows & Hcollapse).
    pose proof (wf_collapse s x y c t e' Hwf Hc Hcol Ht Hrows) as Hwf1.
    destruct (collapse_counts s x y c (Cell.mk [t] true t) e') as [Hn1 Hn2];
      [apply Hal | done..|].
    set (s1 := mkWfc _ _ _ _ _ _ _ _ _) in *.
    destruct (propagate_total fuel s1 x y (Cell.mk [t] true t) Hwf1)
      as (s2 & Hprop & Hwf2 & Hf).
    { by apply (get_put_eq _ _ _ c). }
    exists s2. split; [by eapply collapseStep_Some|]. split; [done|].
    destruct (frame_counts s1 s2 Hf) as [-> ->].
    rewrite (frame_collapsed _ _ Hf), (frame_rows _ _ Hf), (frame_cols _ _ Hf).
    by split_and!.
  - left. split; [done|]. unfold collapseStep. by rewrite Hlow.
  - exfalso. unfold getLowestEntropy in Hlow.
    rewrite lowest_loop in Hlow by (intros p Hp; apply scan_cells; [apply Hal|done]).
    simpl in Hlow. case_bool_decide; [done|].
    by rewrite getStepCount_spec in Hlow by apply Hal.
Qed.

Lemma wf_set_collapsed s b : wf s -> wf (set_collapsed s b).
Proof. by intros []. Qed.

Lemma steps_add fuel n m s :
  steps floor_scaled fuel (n + m) s =
  (s' ← steps floor_scaled fuel n s; steps floor_scaled fuel m s').
Proof.
  revert s. induction n as [|n IH]; intros s; simpl; [done|].
  destruct (collapseStep floor_scaled fuel s); simpl; [apply IH | done].
Qed.

(** Steps from a well-formed state return, in a well-formed state. *)
Lemma steps_wf fuel n s :
  wf s -> exists s', steps floor_scaled (S (S fuel)) n s = Ok s' /\ wf s'.
Proof.
  revert s. induction n as [|n IH]; intros s Hwf; [by exists s|].
  change (exists s', (s1 ← collapseStep floor_scaled (S (S fuel)) s;
                      steps floor_scaled (S (S fuel)) n s1) = Ok s' /\ wf s').
  destruct (collapseStep_progress fuel s Hwf) as [[_ ->] | (s1 & -> & Hwf1 & _)]; simpl.
  - apply IH. by apply wf_set_collapsed.
  - by apply IH.
Qed.

(** Once the selector finds nothing, every further step marks the solver
    complete and changes nothing else. *)
Lemma steps_complete fuel n s :
  getLowestEntropy floor_scaled s = Ok None ->
  steps floor_scaled fuel (S n) s = Ok (set_collapsed s true).
Proof.
  intros Hnone.
  assert (Hstep : forall s0, getLowestEntropy floor_scaled s0 = Ok None ->
            collapseStep floor_scaled fuel s0 = Ok (set_collapsed s0 true)).
  { intros s0 H0. unfold collapseStep. by rewrite H0. }
  induction n as [|n IH].
  - simpl. by rewrite (Hstep s Hnone).
  - change (steps floor_scaled fuel (S (S n)) s) with
      (s1 ← collapseStep floor_scaled fuel s; steps floor_scaled fuel (S n) s1).
    rewrite (Hstep s Hnone). simpl.
    change (steps floor_scaled fuel (S n) (set_collapsed s true))
      with (s1 ← collapseStep floor_scaled fuel (set_collapsed s true);
            steps floor_scaled fuel n s1).
    rewrite (Hstep (set_collapsed s true)) by exact Hnone. simpl.
    destruct n as [|n]; [done|].
    change (steps floor_scaled fuel (S n) (set_collapsed (set_collapsed s true) true))
      with (steps floor_scaled fuel (S n) (set_collapsed s true)).
    rewrite <- IH. simpl. by rewrite (Hstep s Hnone).
Qed.

(** From a well-formed, incomplete state with [u] uncollapsed cells, at
    most [u] steps collapse one cell each, and then the selector finds
    nothing. *)
Lemma run_completes fuel u s :
  wf s -> length (uncollapsed_cells s) = u -> collapsed s = false ->
  exists k sk,
    (k <= u)%nat /\ steps floor_scaled (S (S fuel)) k s = Ok sk /\
    collapsed sk = false /\ rows sk = rows s /\ cols sk = cols s /\
    length (collapsed_cells sk) = (length (collapsed_cells s) + k)%nat /\
    getLowestEntropy floor_scaled sk = Ok None.
Proof.
  revert s. induction u as [|u IH]; intros s Hwf Hu Hflag.
  - destruct (collapseStep_progress fuel s Hwf) as [[Hnone _] | (s' & _ & _ & _ & _ & _ & _ & Hn)].
    + exists 0%nat, s. split_and!; first [done | lia].
    + lia.
  - destruct (collapseStep_progress fuel s Hwf)
      as [[Hnone _] | (s' & Hstep & Hwf' & Hflag' & Hr & Hc & Hn1 & Hn2)].
    + exists 0%nat, s. split_and!; first [done | lia].
    + destruct (IH s' Hwf') as (k & sk & Hk & Hrun & Hfl & Hrk & Hck & Hcount & Hnone);
        [lia | congruence |].
      exists (S k), sk. split_and!; try congruence; try lia.
      change (steps floor_scaled (S (S fuel)) (S k) s) with
        (s1 ← collapseStep floor_scaled (S (S fuel)) s;
         steps floor_scaled (S (S fuel)) k s1).
      by rewrite Hstep.
Qed.

(** ** The run *)

(** C4.  Start from the grid [regenerate] builds, in a solver whose table
    has an entry for each tile of its catalogue and whose seed is not
    negative.  Any number of steps (selector, collapse, propagate) returns,
    and in the state reached every cell satisfies the invariant: a collapsed
    cell has exactly one tile in its domain, its value; an uncollapsed cell
    has zero or more. *)
Theorem invariant_preservation s0 s1 fuel n :
  (forall t, t ∈ tiles s0 -> is_Some (constraints s0 !! to_key t)) ->
  0 <= seed s0 -> regenerate s0 = Ok s1 ->
  exists sn,
    steps floor_scaled (S (S fuel)) n s1 = Ok sn /\
    forall x y c, get_cell (grid sn) x y = Ok c -> cell_invariant c.
Proof.
  intros Htab Hseed Hreg.
  destruct (regenerate_wf s0 s1 Htab Hseed Hreg) as (Hwf & _).
  destruct (steps_wf fuel n s1 Hwf) as (sn & Hrun & Hwfn).
  exists sn. split; [done|]. intros x y c Hc.
  pose proof (wf_cells _ Hwfn x y c Hc) as H. unfold cell_invariant.
  destruct (Cell.collapsed c); [tauto | lia].
Qed.

(** C8, amended.  A call of [collapseCell] that answers [true] leaves
    exactly one uncollapsed cell fewer.  A call of [propagate] that returns
    leaves the number of uncollapsed cells as it was.  And from the grid
    [regenerate] builds, with a seed in the range the seed field declares,
    some number [k] of steps, at most rows times columns, collapse one cell
    each and lead to a state in which the selector answers none because
    every cell is collapsed or has an empty domain, the solver not being
    marked complete yet; every further step marks it complete and changes
    nothing else. *)
Theorem termination_bound :
  (forall s x y s',
     shape (grid s) (rows s) (cols s) ->
     collapseCell floor_scaled s x y = Ok (true, s') ->
     length (uncollapsed_cells s) = S (length (uncollapsed_cells s'))) /\
  (forall fuel s x y s',
     propagate fuel s x y = Ok s' ->
     length (uncollapsed_cells s') = length (uncollapsed_cells s)) /\
  (forall s0 s1 fuel,
     (forall t, t ∈ tiles s0 -> is_Some (constraints s0 !! to_key t)) ->
     declared_seed (seed s0) -> regenerate s0 = Ok s1 ->
     exists k sk,
       (k <= Z.to_nat (rows s0) * Z.to_nat (cols s0))%nat /\
       steps floor_scaled (S (S fuel)) k s1 = Ok sk /\
       collapsed sk = false /\ length (collapsed_cells sk) = k /\
       getLowestEntropy floor_scaled sk = Ok None /\
       (forall x y c, get_cell (grid sk) x y = Ok c ->
          Cell.collapsed c = true \/ Cell.possible c = []) /\
       forall m, (k < m)%nat ->
         steps floor_scaled (S (S fuel)) m s1 = Ok (set_collapsed sk true)).
Proof.
  split_and!.
  - intros s x y s' Hs (c & c' & e' & Hc & Hcol & Hcol' & ->)%collapseCell_true_shape.
    by apply (collapse_counts s x y c c' e').
  - intros fuel s x y s' Hf%propagate_frame_any.
    by destruct (frame_counts s s' Hf) as [_ ->].
  - intros s0 s1 fuel Htab [Hseed _] Hreg.
    destruct (regenerate_wf s0 s1 Htab Hseed Hreg) as (Hwf & Hflag & Hnone & Hr & Hc).
    destruct (run_completes fuel _ s1 Hwf eq_refl Hflag)
      as (k & sk & Hk & Hrun & Hfl & _ & _ & Hcount & Hdone).
    destruct (steps_wf fuel k s1 Hwf) as (sk' & Hrun' & Hwfk).
    assert (sk' = sk) as -> by congruence.
    exists k, sk. split_and!; try done.
    + etransitivity; [exact Hk|].
      etransitivity; [apply length_filter|]. rewrite length_scan, Hr, Hc. done.
    + rewrite Hcount, Hnone. done.
    + apply getLowestEntropy_None_all; [apply Hwfk | apply Hwfk | exact Hdone].
    + intros m Hm. replace m with (k + S (m - k - 1))%nat by lia.
      rewrite steps_add, Hrun. simpl.
      change (steps floor_scaled (S (S fuel)) (S (m - k - 1)) sk =
              Ok (set_collapsed sk true)).
      apply (steps_complete _ _ _ Hdone).
Qed.

End SolverProperties.

(** ** The propagation stops after one pass *)

(** C1 fails on the code.  On the 3 x 3 grid of [squeezed], [propagate]
    from the bottom neighbour (1, 2) narrows the centre (1, 1) from two tiles
    to the blank tile alone, without a reset, and returns; the cell above the
    centre, (1, 0), is uncollapsed and still holds the whole catalogue,
    although the vertical tile in it is allowed by no tile left in the
    centre.  The rule was not applied again from the changed cell: each
    recursive call returns at its first line, the changed cell being
    uncollapsed. *)
Theorem propagate_stops_after_one_pass :
  exists s',
    (forall fuel, propagate (S (S fuel)) squeezed 1 2 = Ok s') /\
    get_cell (grid squeezed) 1 1 = Ok (Cell.mk [JStr " "; JStr "║"] false JNull) /\
    get_cell (grid s') 1 1 = Ok (Cell.mk [JStr " "] false JNull) /\
    get_cell (grid s') 1 0 = Ok (Cell.mk catalog false JNull) /\
    conflicts s' = [] /\
    ~ arc_consistent s' 1 1 (1, 0, DTop).
Proof.
  destruct (propagate 2 squeezed 1 2) as [s'|] eqn:Hrun; [|by vm_compute in Hrun].
  exists s'.
  assert (Hs' : Ok s' = propagate 2 squeezed 1 2) by done.
  vm_compute in Hs'. injection Hs' as ->.
  split_and!.
  - intros fuel. rewrite propagate_one_pass, <- (propagate_one_pass 0). exact Hrun.
  - by vm_compute.
  - by vm_compute.
  - by vm_compute.
  - by vm_compute.
  - unfold arc_consistent.
    assert (H11 : forall c, Ok c = get_cell (grid squeezed) 1 1 -> True) by done.
    intros Harc. vm_compute in Harc.
    destruct (Harc (JStr "║")) as (u & Hu & l & Hl & Hin).
    { apply elem_of_cons. right. apply elem_of_cons. by left. }
    apply list_elem_of_singleton in Hu as ->.
    vm_compute in Hl. injection Hl as <-.
    repeat (apply elem_of_cons in Hin as [Hin|Hin]; [discriminate|]).
    by apply elem_of_nil in Hin.
Qed.

(** * The theorems at concrete inputs *)

Lemma floor_exact_range r n :
  0 <= r < 233280 -> 0 < n -> 0 <= floor_exact r n < n.
Proof.
  intros Hr Hn. unfold floor_exact. split.
  - apply Z.div_pos; nia.
  - apply Z.div_lt_upper_bound; nia.
Qed.

(** Every tile of a catalogue has an entry in the table built from it. *)
Lemma buildConstraints_total ts t :
  t ∈ ts -> is_Some (buildConstraints ts !! to_key t).
Proof.
  intros Ht. unfold buildConstraints.
  pose proof (extends_outer (to_key t) ts ts
    (foldl (fun c tile => <[to_key tile := empty_edges]> c) ∅ ts)) as Hext.
  unfold extends in Hext. rewrite init_table_lookup in Hext.
  rewrite bool_decide_eq_true_2 in Hext by (by apply list_elem_of_fmap_2).
  destruct (foldl _ _ ts !! to_key t); [eauto|done].
Qed.

Lemma squeezed_shape : shape (grid squeezed) (rows squeezed) (cols squeezed).
Proof.
  split; [vm_compute; reflexivity|].
  apply (bool_decide_unpack _). vm_compute. exact I.
Qed.

Lemma squeezed_allocated : allocated squeezed.
Proof.
  split; [apply squeezed_shape|]. intros y Hy.
  assert (Hr : rows squeezed = 3) by (vm_compute; reflexivity). rewrite Hr in Hy.
  assert (y = 0 \/ y = 1 \/ y = 2) as [-> | [-> | ->]] by lia;
    apply (bool_decide_unpack _); vm_compute; exact I.
Qed.

Lemma constraint_symmetry_witness :
  permits (buildConstraints catalog) (JStr "═") DRight (JStr "╗") <->
  permits (buildConstraints catalog) (JStr "╗") DLeft (JStr "═").
Proof.
  apply (constraint_symmetry catalog (JStr "═") (JStr "╗") DRight).
  - apply catalog_strings.
  - apply (bool_decide_unpack _). vm_compute. exact I.
  - apply (bool_decide_unpack _). vm_compute. exact I.
Defined.

Lemma propagate_uncollapsed_noop_witness :
  get_cell (grid squeezed) 1 1 = Ok centre_cell /\
  Cell.collapsed centre_cell = false /\
  propagate 1 squeezed 1 1 = Ok squeezed.
Proof.
  assert (H : get_cell (grid squeezed) 1 1 = Ok centre_cell)
    by (vm_compute; reflexivity).
  split; [exact H|]. split; [reflexivity|].
  apply (propagate_uncollapsed_noop 0 squeezed 1 1 centre_cell H). reflexivity.
Defined.

Lemma keys_distinct_off_origin_witness :
  0 <= 1 /\ 0 <= 2 /\
  Z.abs 42 + 1 * 1000 + 2 * 100 + Z.of_nat 3 <= 2 ^ 53 /\
  collapse_key 42 1 2 3 = 1245 /\ selector_key 42 3 = 45 /\
  (collapse_key 42 1 2 3 = selector_key 42 3 <-> 1 = 0 /\ 2 = 0).
Proof.
  assert (Hb : Z.abs 42 + 1 * 1000 + 2 * 100 + Z.of_nat 3 <= 2 ^ 53)
    by (vm_compute; discriminate).
  split; [lia|]. split; [lia|]. split; [exact Hb|].
  split; [reflexivity|]. split; [reflexivity|].
  apply (keys_distinct_off_origin 42 1 2 3); [lia | lia | exact Hb].
Defined.



Lemma collapseCell_spec_witness :
  allocated squeezed /\ declared_seed (seed squeezed) /\
  get_cell (grid squeezed) 1 1 = Ok centre_cell /\
  exists t s',
    collapseCell floor_exact squeezed 1 1 = Ok (true, s') /\
    t ∈ Cell.possible centre_cell /\
    get_cell (grid s') 1 1 = Ok (Cell.mk [t] true t) /\
    forall x' y', (x', y') <> (1, 1) ->
      get_cell (grid s') x' y' = get_cell (grid squeezed) x' y'.
Proof.
  assert (Hseed : declared_seed (seed squeezed)) by (split; vm_compute; discriminate).
  assert (Hc : get_cell (grid squeezed) 1 1 = Ok centre_cell)
    by (vm_compute; reflexivity).
  split; [apply squeezed_allocated|]. split; [exact Hseed|]. split; [exact Hc|].
  apply (collapseCell_spec floor_exact floor_exact_range squeezed 1 1 centre_cell
           squeezed_allocated Hseed Hc); [reflexivity | discriminate].
Defined.

Lemma crossed_shape : shape (grid crossed) (rows crossed) (cols crossed).
Proof.
  split; [vm_compute; reflexivity|].
  apply (bool_decide_unpack _). vm_compute. exact I.
Qed.

Lemma getLowestEntropy_spec_witness :
  shape (grid crossed) (rows crossed) (cols crossed) /\ declared_seed (seed crossed) /\
  exact_key (selector_key (seed crossed) (length (collapsed_cells crossed))) /\
  lowest_entropy_cells crossed = [(1, 0); (0, 1); (2, 1); (1, 2)] /\
  random_index floor_exact
    (selector_key (seed crossed) (length (collapsed_cells crossed)))
    (length (lowest_entropy_cells crossed)) = 3 /\
  getLowestEntropy floor_exact crossed =
    Ok (if bool_decide (lowest_entropy_cells crossed = []) then None
        else lookupZ (lowest_entropy_cells crossed)
               (random_index floor_exact
                  (selector_key (seed crossed) (length (collapsed_cells crossed)))
                  (length (lowest_entropy_cells crossed)))) /\
  getLowestEntropy floor_exact crossed = Ok (Some (1, 2)) /\
  (1, 2) ∈ lowest_entropy_cells crossed /\
  exists c, get_cell (grid crossed) 1 2 = Ok c /\
    Cell.collapsed c = false /\ Cell.possible c <> [] /\
    forall x' y' c', get_cell (grid crossed) x' y' = Ok c' ->
      Cell.collapsed c' = false -> Cell.possible c' <> [] ->
      (length (Cell.possible c) <= length (Cell.possible c'))%nat.
Proof.
  assert (Hseed : declared_seed (seed crossed)) by (split; vm_compute; discriminate).
  assert (Hkey : exact_key (selector_key (seed crossed)
                              (length (collapsed_cells crossed))))
    by (split; vm_compute; discriminate).
  assert (Hres : getLowestEntropy floor_exact crossed = Ok (Some (1, 2)))
    by (vm_compute; reflexivity).
  destruct (getLowestEntropy_spec floor_exact floor_exact_range crossed
              crossed_shape Hseed) as (H1 & _ & H3).
  split; [apply crossed_shape|]. split; [exact Hseed|]. split; [exact Hkey|].
  split; [vm_compute; reflexivity|]. split; [vm_compute; reflexivity|].
  split; [exact (H1 Hkey)|]. split; [exact Hres|].
  exact (H3 1 2 Hres).
Defined.

Lemma invariant_preservation_witness :
  0 <= seed blank_solver /\
  regenerate blank_solver = Ok (regenerated blank_solver) /\
  exists sn,
    steps floor_exact 2 4 (regenerated blank_solver) = Ok sn /\
    forall x y c, get_cell (grid sn) x y = Ok c -> cell_invariant c.
Proof.
  assert (Hseed : 0 <= seed blank_solver) by (simpl; lia).
  split; [exact Hseed|]. split; [reflexivity|].
  apply (invariant_preservation floor_exact floor_exact_range blank_solver
           (regenerated blank_solver) 0 4).
  - intros t Ht. by apply buildConstraints_total.
  - exact Hseed.
  - reflexivity.
Defined.

Lemma termination_bound_witness :
  (collapseCell floor_exact squeezed 1 1 = Ok (true, squeezed_collapsed) /\
   length (uncollapsed_cells squeezed) = S (length (uncollapsed_cells squeezed_collapsed))) /\
  (propagate 2 squeezed 1 2 = Ok squeezed_propagated /\
   length (uncollapsed_cells squeezed_propagated) = length (uncollapsed_cells squeezed)) /\
  (declared_seed (seed blank_solver) /\
   exists k sk,
     (k <= Z.to_nat (rows blank_solver) * Z.to_nat (cols blank_solver))%nat /\
     steps floor_exact 2 k (regenerated blank_solver) = Ok sk /\
     collapsed sk = false /\ length (collapsed_cells sk) = k /\
     getLowestEntropy floor_exact sk = Ok None /\
     (forall x y c, get_cell (grid sk) x y = Ok c ->
        Cell.collapsed c = true \/ Cell.possible c = []) /\
     forall m, (k < m)%nat ->
       steps floor_exact 2 m (regenerated blank_solver) = Ok (set_collapsed sk true)).
Proof.
  destruct (termination_bound floor_exact floor_exact_range) as (H1 & H2 & H3).
  assert (Hcollapse : collapseCell floor_exact squeezed 1 1 = Ok (true, squeezed_collapsed))
    by (vm_compute; reflexivity).
  assert (Hprop : propagate 2 squeezed 1 2 = Ok squeezed_propagated)
    by (vm_compute; reflexivity).
  assert (Hseed : declared_seed (seed blank_solver)) by (split; vm_compute; discriminate).
  split; [split; [exact Hcollapse|]|split; [split; [exact Hprop|]|split; [exact Hseed|]]].
  - apply (H1 squeezed 1 1 squeezed_collapsed squeezed_shape Hcollapse).
  - apply (H2 2%nat squeezed 1 2 squeezed_propagated Hprop).
  - apply (H3 blank_solver (regenerated blank_solver) 0%nat).
    + intros t Ht. by apply buildConstraints_total.
    + exact Hseed.
    + reflexivity.
Defined.

(** ** A negative seed typed into the seed field

    The seed field of the framework passes a typed negative number on to
    [setSeed].  In the fresh 3 x 3 grid with seed -10 the key of the first
    selector draw and of a collapse draw at the origin is -10; the generator
    leaves -43713, and the index is the floor of a negative number. *)

Lemma negative_solver_shape :
  shape (grid negative_solver) (rows negative_solver) (cols negative_solver).
Proof.
  split; [vm_compute; reflexivity|].
  apply (bool_decide_unpack _). vm_compute. exact I.
Qed.

(** C5, as stated, fails for a negative seed: all nine cells are
    candidates, the index drawn is -2, and the selector returns nothing. *)
Lemma selector_none_with_candidates :
  seed negative_solver = -10 /\
  lowest_entropy_cells negative_solver = scan 3 3 /\
  random_index floor_exact
    (selector_key (seed negative_solver) (length (collapsed_cells negative_solver)))
    (length (lowest_entropy_cells negative_solver)) = -2 /\
  getLowestEntropy floor_exact negative_solver = Ok None /\
  ~ (getLowestEntropy floor_exact negative_solver = Ok None <->
     forall x y c, get_cell (grid negative_solver) x y = Ok c ->
       Cell.collapsed c = true \/ Cell.possible c = []).
Proof.
  assert (Hnone : getLowestEntropy floor_exact negative_solver = Ok None)
    by (vm_compute; reflexivity).
  split; [reflexivity|]. split; [vm_compute; reflexivity|].
  split; [vm_compute; reflexivity|]. split; [exact Hnone|].
  intros [Hall _].
  assert (Hc : get_cell (grid negative_solver) 0 0 = Ok (fresh_cell catalog))
    by (vm_compute; reflexivity).
  destruct (Hall Hnone 0 0 _ Hc) as [H | H]; discriminate H.
Qed.

(** C6, as stated, fails for a negative seed: the index drawn for the
    origin is -3, and the cell is collapsed onto [undefined], which is no
    tile of its domain. *)
Lemma collapseCell_picks_undefined :
  get_cell (grid negative_solver) 0 0 = Ok (fresh_cell catalog) /\
  random_index floor_exact
    (collapse_key (seed negative_solver) 0 0 (length (collapsed_cells negative_solver)))
    (length (Cell.possible (fresh_cell catalog))) = -3 /\
  collapseCell floor_exact negative_solver 0 0 = Ok (true, negative_collapsed) /\
  get_cell (grid negative_collapsed) 0 0 = Ok (Cell.mk [JUndefined] true JUndefined) /\
  ~ (exists t s',
       collapseCell floor_exact negative_solver 0 0 = Ok (true, s') /\
       t ∈ Cell.possible (fresh_cell catalog) /\
       get_cell (grid s') 0 0 = Ok (Cell.mk [t] true t)).
Proof.
  assert (Hrun : collapseCell floor_exact negative_solver 0 0 =
                 Ok (true, negative_collapsed)) by (vm_compute; reflexivity).
  assert (Hcell : get_cell (grid negative_collapsed) 0 0 =
                  Ok (Cell.mk [JUndefined] true JUndefined))
    by (vm_compute; reflexivity).
  split; [vm_compute; reflexivity|]. split; [vm_compute; reflexivity|].
  split; [exact Hrun|]. split; [exact Hcell|].
  intros (t & s' & Hrun' & Ht & Hcell').
  rewrite Hrun in Hrun'. injection Hrun' as <-.
  rewrite Hcell in Hcell'. injection Hcell' as <-.
  apply catalog_strings in Ht as [? Ht]. discriminate Ht.
Qed.

(** C8, as stated, fails for a negative seed: the first step marks the
    solver complete with all nine cells uncollapsed, each with its twelve
    tiles, and no number of steps collapses any of them. *)
Lemma complete_with_cells_left :
  regenerate (with_seed blank_solver (-10)) = Ok negative_solver /\
  length (uncollapsed_cells negative_solver) = 9%nat /\
  (forall n, steps floor_exact 2 (S n) negative_solver =
             Ok (set_collapsed negative_solver true)) /\
  ~ (exists k sk,
       steps floor_exact 2 k negative_solver = Ok sk /\
       forall x y c, get_cell (grid sk) x y = Ok c ->
         Cell.collapsed c = true \/ Cell.possible c = []).
Proof.
  assert (Hnone : getLowestEntropy floor_exact negative_solver = Ok None)
    by (vm_compute; reflexivity).
  assert (Hsteps : forall n, steps floor_exact 2 (S n) negative_solver =
                             Ok (set_collapsed negative_solver true)).
  { intros n. by apply steps_complete. }
  assert (Hc : get_cell (grid negative_solver) 0 0 = Ok (fresh_cell catalog))
    by (vm_compute; reflexivity).
  split; [reflexivity|]. split; [vm_compute; reflexivity|]. split; [exact Hsteps|].
  intros (k & sk & Hrun & Hall).
  assert (Hgrid : grid sk = grid negative_solver).
  { destruct k as [|k]; [by injection Hrun as <-|].
    rewrite Hsteps in Hrun. by injection Hrun as <-. }
  rewrite <- Hgrid in Hc. destruct (Hall 0 0 _ Hc) as [H | H]; discriminate H.
Qed.

(** * Further properties of the code *)

(** ** buildConstraints *)

(** X1.  For a catalogue of strings and a tile [a] of it, a value is in
    [constraints[a][d]] exactly when it is a tile of the catalogue whose
    facing edge agrees with the edge of [a] in direction [d]. *)
Theorem table_membership ts a d b :
  all_strings ts -> a ∈ ts ->
  permits (buildConstraints ts) a d b <-> b ∈ ts /\ compatible a d b.
Proof.
  intros Hs Ha. unfold permits.
  destruct (buildConstraints_spec ts a d Hs Ha) as (l & Hl & Hm).
  rewrite Hl. split.
  - intros (l' & [= <-] & Hin). by apply Hm.
  - intros Hb. exists l. split; [done|]. by apply Hm.
Qed.

Lemma table_membership_witness :
  permits (buildConstraints catalog) (JStr "║") DBottom (JStr "╔") <->
  JStr "╔" ∈ catalog /\ compatible (JStr "║") DBottom (JStr "╔").
Proof.
  apply (table_membership catalog (JStr "║") DBottom (JStr "╔")).
  - apply catalog_strings.
  - apply (bool_decide_unpack _). vm_compute. exact I.
Defined.

(** ** propagate and collapseCell off the grid *)

Lemma get_cell_off_grid g nrows ncols x y :
  shape g nrows ncols -> ~ (0 <= x < ncols /\ 0 <= y < nrows) ->
  get_cell g x y = Throw TypeError.
Proof.
  intros Hs Hout. destruct (get_cell g x y) as [c|e] eqn:Hc.
  - exfalso. apply Hout. by eapply get_shape.
  - unfold get_cell in Hc. by repeat case_match; simplify_eq.
Qed.

(** ** What propagate leaves alone *)

(** X3.  Whatever the state, the coordinate and the depth allowed, a call
    of [propagate] that returns has changed neither the catalogue, the
    table, the dimensions, the seed nor the completion flag; every cell is
    still there with its [collapsed] flag and its [value], and every
    collapsed cell, the origin included, is exactly as it was. *)
Theorem propagate_preserves fuel s x y s' :
  propagate fuel s x y = Ok s' ->
  tiles s' = tiles s /\ constraints s' = constraints s /\
  cols s' = cols s /\ rows s' = rows s /\ seed s' = seed s /\
  collapsed s' = collapsed s /\
  forall x' y' c, get_cell (grid s) x' y' = Ok c ->
    exists c', get_cell (grid s') x' y' = Ok c' /\
      Cell.collapsed c' = Cell.collapsed c /\ Cell.value c' = Cell.value c /\
      (Cell.collapsed c = true -> c' = c).
Proof.
  intros [Ht Hc Hcols Hrows Hseed Hflag Hgrid _ _]%propagate_frame_any.
  split_and!; try done.
  intros x' y' c Hcell. specialize (Hgrid x' y'). rewrite Hcell in Hgrid.
  destruct (get_cell (grid s') x' y') as [c'|]; [|done]. by exists c'.
Qed.

Lemma propagate_preserves_witness :
  propagate 2 squeezed 1 2 = Ok squeezed_propagated /\
  tiles squeezed_propagated = tiles squeezed /\
  constraints squeezed_propagated = constraints squeezed /\
  cols squeezed_propagated = cols squeezed /\
  rows squeezed_propagated = rows squeezed /\
  seed squeezed_propagated = seed squeezed /\
  collapsed squeezed_propagated = collapsed squeezed /\
  forall x' y' c, get_cell (grid squeezed) x' y' = Ok c ->
    exists c', get_cell (grid squeezed_propagated) x' y' = Ok c' /\
      Cell.collapsed c' = Cell.collapsed c /\ Cell.value c' = Cell.value c /\
      (Cell.collapsed c = true -> c' = c).
Proof.
  assert (Hprop : propagate 2 squeezed 1 2 = Ok squeezed_propagated)
    by (vm_compute; reflexivity).
  split; [exact Hprop|].
  apply (propagate_preserves 2 squeezed 1 2 squeezed_propagated Hprop).
Defined.

(** ** What propagate does to the grid *)

Lemma propagate_neighbor_cell tile s ch nx ny dir s' ch' x' y' c :
  propagate_neighbor tile (s, ch) (nx, ny, dir) = Ok (s', ch') ->
  get_cell (grid s) x' y' = Ok c ->
  get_cell (grid s') x' y' =
  Ok (if bool_decide ((x', y') = (nx, ny))
      then (if bool_decide (in_bounds s x' y') then propagated_cell s tile dir c else c)
      else c).
Proof.
  intros Hstep Hc.
  pose proof Hstep as
    [(-> & _ & [Hout | (c1 & Hc1 & Hcol1)]) |
     (nCell & allowed & e' & Hb & Hcell & Hcol & Hal & _ & _ & ->)]
    %propagate_neighbor_inv.
  - rewrite Hc. case_bool_decide as Heq; [|done]. injection Heq as -> ->.
    by rewrite bool_decide_eq_false_2.
  - rewrite Hc. case_bool_decide as Heq; [|done]. injection Heq as -> ->.
    assert (c1 = c) as -> by congruence.
    unfold propagated_cell. rewrite Hcol1. by case_bool_decide.
  - simpl. pose proof Hcell as (Hx & Hy & _)%get_cell_Ok.
    case_bool_decide as Heq.
    + injection Heq as -> ->. assert (nCell = c) as -> by congruence.
      rewrite (get_put_eq _ _ _ _ _ Hcell), bool_decide_eq_true_2 by done.
      unfold propagated_cell. by rewrite Hcol, Hal.
    + by rewrite get_put_ne.
Qed.

Lemma propagated_cell_static s s1 tile dir c :
  tiles s1 = tiles s -> constraints s1 = constraints s ->
  propagated_cell s1 tile dir c = propagated_cell s tile dir c.
Proof. intros Ht Hc. unfold propagated_cell. by rewrite Ht, Hc. Qed.

Lemma pass_cell_fresh s tile nbs x' y' c :
  (x', y') ∉ fst <$> nbs -> pass_cell s tile nbs x' y' c = c.
Proof.
  induction nbs as [|[[nx ny] dir] nbs IH]; simpl; [done|].
  rewrite not_elem_of_cons. intros [Hne Hnot].
  rewrite bool_decide_eq_false_2 by done. by apply IH.
Qed.

Lemma pass_effect tile s0 nbs s ch s' ch' :
  NoDup (fst <$> nbs) -> frame s0 s ->
  foldlM (propagate_neighbor tile) (s, ch) nbs = Ok (s', ch') ->
  forall x' y' c, get_cell (grid s) x' y' = Ok c ->
    get_cell (grid s') x' y' = Ok (pass_cell s0 tile nbs x' y' c).
Proof.
  revert s ch. induction nbs as [|[[nx ny] dir] nbs IH]; intros s ch Hnd Hf.
  - simpl. intros [= <- <-] x' y' c Hc. done.
  - cbn [foldlM pass_cell].
    intros ([s1 ch1] & Hstep & Hrest)%bind_Ok x' y' c Hc.
    rewrite fmap_cons in Hnd. apply NoDup_cons in Hnd as [Hnot Hnd].
    pose proof (propagate_neighbor_cell _ _ _ _ _ _ _ _ x' y' c Hstep Hc) as Hc1.
    pose proof (propagate_neighbor_frame _ _ _ _ _ _ Hstep) as [Hf1 _].
    rewrite (IH s1 ch1 Hnd (frame_trans _ _ _ Hf Hf1) Hrest x' y' _ Hc1).
    f_equal. case_bool_decide as Heq.
    + injection Heq as -> ->. rewrite pass_cell_fresh by done.
      assert (Hin : in_bounds s nx ny <-> in_bounds s0 nx ny).
      { unfold in_bounds. by rewrite (frame_cols _ _ Hf), (frame_rows _ _ Hf). }
      rewrite (bool_decide_ext _ _ Hin).
      destruct (bool_decide (in_bounds s0 nx ny)); [|reflexivity].
      apply propagated_cell_static; [apply (frame_tiles _ _ Hf) | apply (frame_constraints _ _ Hf)].
    + done.
Qed.

Lemma NoDup_neighbors x y : NoDup (fst <$> neighbors x y).
Proof.
  unfold neighbors. rewrite !fmap_cons. simpl.
  apply NoDup_cons; split;
    [|apply NoDup_cons; split; [|apply NoDup_cons; split; [|apply NoDup_singleton]]];
    rewrite ?not_elem_of_cons; split_and?; try apply not_elem_of_nil;
    intros Heq; injection Heq; lia.
Qed.

Lemma pass_cell_neighbors s tile x y x' y' c :
  pass_cell s tile (neighbors x y) x' y' c =
  match neighbor_dir x y x' y' with
  | Some dir =>
      if bool_decide (in_bounds s x' y') then propagated_cell s tile dir c else c
  | None => c
  end.
Proof.
  unfold neighbors, neighbor_dir. simpl. by repeat case_bool_decide.
Qed.

Lemma propagate_grid fuel s x y c0 s' :
  get_cell (grid s) x y = Ok c0 -> Cell.collapsed c0 = true ->
  propagate (S (S fuel)) s x y = Ok s' ->
  forall x' y' c, get_cell (grid s) x' y' = Ok c ->
    get_cell (grid s') x' y' =
    Ok (match neighbor_dir x y x' y' with
        | Some dir =>
            if bool_decide (in_bounds s x' y')
            then propagated_cell s (Cell.value c0) dir c else c
        | None => c
        end).
Proof.
  intros Hc0 Hcol0. rewrite propagate_one_pass, Hc0. simpl. rewrite Hcol0. simpl.
  intros ([s1 ch] & Hpass & [= <-])%bind_Ok x' y' c Hc.
  rewrite <- pass_cell_neighbors.
  apply (pass_effect (Cell.value c0) s (neighbors x y) s [] s1 ch); try done.
  - apply NoDup_neighbors.
  - apply frame_refl.
Qed.

(** X4.  With room for two nested calls, [propagate] from a collapsed
    cell returns a grid in which every cell is what it was, except the
    uncollapsed cells right above, right of, below and left of the origin
    that lie within the dimensions: the domain of such a neighbour is its
    former domain restricted to the tiles the origin's tile allows in that
    direction, or the whole catalogue when that restriction is empty.  No
    cell farther away changes. *)
Theorem propagate_effect fuel s x y c0 s' :
  get_cell (grid s) x y = Ok c0 -> Cell.collapsed c0 = true ->
  propagate (S (S fuel)) s x y = Ok s' ->
  forall x' y' c, get_cell (grid s) x' y' = Ok c ->
    get_cell (grid s') x' y' =
    Ok (match neighbor_dir x y x' y' with
        | Some dir =>
            if bool_decide (in_bounds s x' y')
            then propagated_cell s (Cell.value c0) dir c else c
        | None => c
        end).
Proof. apply propagate_grid. Qed.

Lemma propagate_effect_witness :
  get_cell (grid squeezed) 1 2 = Ok (Cell.mk [JStr " "] true (JStr " ")) /\
  propagate 2 squeezed 1 2 = Ok squeezed_propagated /\
  get_cell (grid squeezed) 1 1 = Ok centre_cell /\
  get_cell (grid squeezed_propagated) 1 1 =
    Ok (match neighbor_dir 1 2 1 1 with
        | Some dir =>
            if bool_decide (in_bounds squeezed 1 1)
            then propagated_cell squeezed (JStr " ") dir centre_cell else centre_cell
        | None => centre_cell
        end).
Proof.
  assert (H0 : get_cell (grid squeezed) 1 2 = Ok (Cell.mk [JStr " "] true (JStr " ")))
    by (vm_compute; reflexivity).
  assert (Hprop : propagate 2 squeezed 1 2 = Ok squeezed_propagated)
    by (vm_compute; reflexivity).
  assert (Hc : get_cell (grid squeezed) 1 1 = Ok centre_cell)
    by (vm_compute; reflexivity).
  split; [exact H0|]. split; [exact Hprop|]. split; [exact Hc|].
  apply (propagate_effect 0 squeezed 1 2 (Cell.mk [JStr " "] true (JStr " "))
           squeezed_propagated H0 eq_refl Hprop 1 1 centre_cell Hc).
Defined.

(** ** The entropy array *)

Lemma write_entropy_at e x y v e' x' y' :
  write_entropy e x y v = Ok e' ->
  entropy_at e' x' y' =
  if bool_decide ((x', y') = (x, y)) then Some v else entropy_at e x' y'.
Proof.
  unfold write_entropy, entropy_at.
  destruct (e !! y) as [row|] eqn:Hrow; [|done]. intros [= <-].
  destruct (decide (y' = y)) as [->|Hy].
  - rewrite lookup_insert_eq, Hrow. simpl.
    destruct (decide (x' = x)) as [->|Hx].
    + by rewrite lookup_insert_eq, bool_decide_eq_true_2.
    + rewrite lookup_insert_ne by done.
      rewrite bool_decide_eq_false_2; [done | congruence].
  - rewrite lookup_insert_ne by done.
    rewrite bool_decide_eq_false_2; [done | congruence].
Qed.

Lemma foldl_insert_const_lookup {V} (v : V) l (m : gmap Z V) k :
  foldl (fun m k => <[k := v]> m) m l !! k =
  if bool_decide (k ∈ l) then Some v else m !! k.
Proof.
  revert m. induction l as [|a l IH]; intros m; simpl; [done|].
  rewrite IH. destruct (decide (k ∈ l)) as [Hin|Hin].
  - rewrite !bool_decide_eq_true_2; [done| |done]. apply elem_of_cons; auto.
  - rewrite (bool_decide_eq_false_2 _ Hin). destruct (decide (a = k)) as [->|Hne].
    + rewrite lookup_insert_eq, bool_decide_eq_true_2; [done|]. apply elem_of_cons; auto.
    + rewrite lookup_insert_ne by done. rewrite bool_decide_eq_false_2; [done|].
      rewrite elem_of_cons. intros [?|?]; congruence.
Qed.

(** After [regenerate], every entry of the entropy array within the
    dimensions is the size of the catalogue. *)
Lemma fresh_entropy_at s0 s1 x y :
  regenerate s0 = Ok s1 ->
  entropy_at (entropy s1) x y =
  if bool_decide (0 <= x < cols s0 /\ 0 <= y < rows s0)
  then Some (length (tiles s0)) else None.
Proof.
  intros [= <-]. unfold entropy_at, fresh_entropy_row. simpl.
  rewrite foldl_insert_const_lookup, lookup_empty.
  destruct (decide (0 <= y < rows s0)) as [Hy|Hy].
  - rewrite bool_decide_eq_true_2 by (apply elem_of_seqZ; lia). simpl.
    rewrite foldl_insert_const_lookup, lookup_empty.
    apply (f_equal (fun b : bool => if b then Some (length (tiles s0)) else None)).
    apply bool_decide_ext. rewrite elem_of_seqZ. lia.
  - rewrite bool_decide_eq_false_2 by (rewrite elem_of_seqZ; lia). simpl.
    rewrite bool_decide_eq_false_2; [done | tauto].
Qed.

Lemma propagate_neighbor_mirror tile s ch nb s' ch' :
  propagate_neighbor tile (s, ch) nb = Ok (s', ch') ->
  (forall x y c, get_cell (grid s) x y = Ok c ->
     entropy_at (entropy s) x y = Some (entropy_of c)) ->
  forall x y c, get_cell (grid s') x y = Ok c ->
    entropy_at (entropy s') x y = Some (entropy_of c).
Proof.
  destruct nb as [[nx ny] dir]. unfold propagate_neighbor.
  case_bool_decide as Hb; [by intros [= <- <-]|].
  intros (nCell & Hcell & H)%bind_Ok Hmir.
  destruct (Cell.collapsed nCell) eqn:Hcol; [by injection H as <- <-|].
  destruct (allowed_of (constraints s) tile dir) as [allowed|]; [|done].
  apply bind_Ok in H as ([e1 ch1] & H1 & H).
  fold (narrowed allowed nCell) in *.
  pose proof Hcell as (Hx & Hy & _)%get_cell_Ok.
  pose proof (Hmir nx ny nCell Hcell) as Hold.
  unfold entropy_of in Hold. rewrite Hcol in Hold.
  assert (He1 : forall x y, entropy_at e1 x y =
            if bool_decide ((x, y) = (nx, ny))
            then Some (if bool_decide (length (narrowed allowed nCell)
                                       < length (Cell.possible nCell))%nat
                       then length (narrowed allowed nCell)
                       else length (Cell.possible nCell))
            else entropy_at (entropy s) x y).
  { intros x y. destruct (bool_decide (_ < _)%nat) eqn:Hlt.
    - apply bind_Ok in H1 as (e0 & He0 & [= <- _]).
      by rewrite (write_entropy_at _ _ _ _ _ x y He0).
    - injection H1 as <- _.
      destruct (decide ((x, y) = (nx, ny))) as [Heq|Hne].
      + rewrite bool_decide_eq_true_2 by done. by injection Heq as -> ->.
      + by rewrite bool_decide_eq_false_2. }
  assert (Hle : (length (narrowed allowed nCell) <= length (Cell.possible nCell))%nat)
    by apply length_filter.
  destruct (bool_decide (length (narrowed allowed nCell) = 0%nat)) eqn:Hempty.
  - apply bind_Ok in H as (e2 & He2 & [= <- <-]). simpl.
    intros x y c. rewrite (write_entropy_at _ _ _ _ _ x y He2).
    destruct (decide ((x, y) = (nx, ny))) as [Heq|Hne].
    + rewrite bool_decide_eq_true_2 by done. injection Heq as -> ->.
      rewrite (get_put_eq _ _ _ _ _ Hcell). by intros [= <-].
    + rewrite bool_decide_eq_false_2 by done.
      rewrite get_put_ne, He1 by done. rewrite bool_decide_eq_false_2 by done.
      apply Hmir.
  - injection H as <- <-. simpl. intros x y c. rewrite He1.
    apply bool_decide_eq_false in Hempty.
    destruct (decide ((x, y) = (nx, ny))) as [Heq|Hne].
    + rewrite bool_decide_eq_true_2 by done. injection Heq as -> ->.
      rewrite (get_put_eq _ _ _ _ _ Hcell).
      intros [= <-]. unfold entropy_of. simpl. f_equal.
      destruct (decide (length (narrowed allowed nCell)
                        < length (Cell.possible nCell))%nat).
      * by rewrite bool_decide_eq_true_2.
      * rewrite bool_decide_eq_false_2 by done. lia.
    + rewrite bool_decide_eq_false_2 by done.
      rewrite get_put_ne by done. apply Hmir.
Qed.

(** ** What a run keeps *)

Lemma elem_of_conflicts_after ks k dom k' :
  k' ∈ conflicts_after ks k dom -> k' ∈ ks \/ k' = k.
Proof.
  unfold conflicts_after. repeat case_bool_decide.
  - auto.
  - rewrite elem_of_app, list_elem_of_singleton. tauto.
  - intros ?%elem_of_remove_first. auto.
Qed.

Lemma run_inv_neighbor tile s ch nb s' ch' :
  run_inv s -> propagate_neighbor tile (s, ch) nb = Ok (s', ch') -> run_inv s'.
Proof.
  intros Hinv Hstep.
  pose proof (wf_neighbor _ _ _ _ _ _ (ri_wf _ Hinv) Hstep) as Hwf'.
  pose proof (propagate_neighbor_mirror _ _ _ _ _ _ Hstep (ri_entropy _ Hinv)) as Hmir.
  destruct nb as [[nx ny] dir].
  pose proof Hstep as
    [(-> & _) | (nCell & allowed & e' & Hb & Hcell & Hcol & _ & He & _ & Hs')]
    %propagate_neighbor_inv; [done|].
  destruct Hinv as [Hwf Hts Hdom [Hnd Hks] _].
  pose proof Hcell as (Hx & Hy & _)%get_cell_Ok.
  clear Hstep. subst s'. split; [exact Hwf' | exact Hts | | | exact Hmir]; simpl.
  - intros x y c. destruct (decide ((x, y) = (nx, ny))) as [[= -> ->]|Hne].
    + rewrite (get_put_eq _ _ _ _ _ Hcell). intros [= <-] _. simpl.
      destruct (Hdom nx ny nCell Hcell Hcol) as (Hnd1 & _ & Hval).
      unfold domain_after. case_bool_decide as Hlen.
      * by split_and!.
      * split_and!; [by apply NoDup_filter | | done].
        intros _ Hnil. by rewrite Hnil in Hlen.
    + rewrite get_put_ne by done. apply Hdom.
  - split; [by apply NoDup_conflicts_after|].
    intros k [Hk | ->]%elem_of_conflicts_after.
    + destruct (Hks k Hk) as [c Hc].
      destruct (decide ((k.1, k.2) = (nx, ny))) as [[= -> ->]|Hne].
      * rewrite (get_put_eq _ _ _ _ _ Hcell). eauto.
      * rewrite get_put_ne by done. eauto.
    + simpl. rewrite (get_put_eq _ _ _ _ _ Hcell). eauto.
Qed.

Lemma run_inv_propagate fuel s x y s' :
  run_inv s -> propagate fuel s x y = Ok s' -> run_inv s'.
Proof.
  intros Hinv. destruct fuel as [|fuel]; simpl; [done|].
  intros (cell & _ & H)%bind_Ok.
  destruct (negb (Cell.collapsed cell)); [by injection H as <-|].
  apply bind_Ok in H as ([s1 ch] & Hp & H).
  pose proof (propagate_pass_frame _ _ _ _ _ _ Hp) as [_ Hch].
  apply propagate_changed_inv in H as ->; [|done].
  unfold propagate_pass in Hp.
  apply (foldlM_inv (fun a => run_inv a.1) _ _ _ _) in Hp; [done| |done].
  intros [s2 ch2] nb [s3 ch3] _ Hinv2 Hstep. simpl in *.
  by eapply run_inv_neighbor.
Qed.

Lemma run_inv_set_collapsed s b : run_inv s -> run_inv (set_collapsed s b).
Proof. intros [[] ? ? ? ?]. by split. Qed.

Lemma run_inv_regenerate s0 s1 :
  (forall t, t ∈ tiles s0 -> is_Some (constraints s0 !! to_key t)) ->
  0 <= seed s0 -> NoDup (tiles s0) -> regenerate s0 = Ok s1 -> run_inv s1.
Proof.
  intros Htab Hseed Hnd Hreg.
  destruct (regenerate_wf s0 s1 Htab Hseed Hreg) as (Hwf & _ & _ & Hr & Hc).
  assert (Hfresh : forall x y c, get_cell (grid s1) x y = Ok c ->
                     c = fresh_cell (tiles s0)).
  { intros x y c Hcell. injection Hreg as <-. by apply get_cell_fresh in Hcell. }
  assert (Hmir : forall x y c, get_cell (grid s1) x y = Ok c ->
                   entropy_at (entropy s1) x y = Some (entropy_of c)).
  { intros x y c Hcell. rewrite (fresh_entropy_at s0 s1 x y Hreg).
    pose proof (get_shape _ _ _ _ _ _ (proj1 (wf_allocated _ Hwf)) Hcell) as Hxy.
    rewrite Hr, Hc in Hxy. rewrite bool_decide_eq_true_2 by done.
    by rewrite (Hfresh x y c Hcell). }
  assert (Ht1 : tiles s1 = tiles s0) by (by injection Hreg as <-).
  assert (Hk1 : conflicts s1 = []) by (by injection Hreg as <-).
  split; [exact Hwf | by rewrite Ht1 | | | exact Hmir].
  - intros x y c ->%Hfresh _. simpl. rewrite Ht1. by split_and!.
  - rewrite Hk1. split; [constructor|].
    intros k Hk. by apply elem_of_nil in Hk.
Qed.

Section RunProperties.

Variable floor_scaled : Z -> Z -> Z.
Hypothesis floor_scaled_range :
  forall r n, 0 <= r < 233280 -> 0 < n -> 0 <= floor_scaled r n < n.

Lemma getLowestEntropy_Some_eligible s x y :
  shape (grid s) (rows s) (cols s) ->
  getLowestEntropy floor_scaled s = Ok (Some (x, y)) ->
  exists c, get_cell (grid s) x y = Ok c /\
            Cell.collapsed c = false /\ Cell.possible c <> [].
Proof.
  intros Hs Hlow. unfold getLowestEntropy in Hlow.
  rewrite lowest_loop in Hlow by (intros p Hp; by apply scan_cells).
  simpl in Hlow. fold (lowest_entropy_cells s) in Hlow.
  destruct (bool_decide (length (lowest_entropy_cells s) = 0%nat)); [done|].
  rewrite getStepCount_spec in Hlow by done. simpl in Hlow.
  injection Hlow as Hlow. apply lookupZ_Some in Hlow as [_ Hlow].
  apply list_elem_of_lookup_2, elem_of_argmins in Hlow as [Hel _].
  by apply elem_of_eligible in Hel.
Qed.

(** What a successful [collapseCell] does, with the entropy write. *)
Lemma collapseCell_exact s x y c :
  allocated s -> 0 <= seed s ->
  get_cell (grid s) x y = Ok c ->
  Cell.collapsed c = false -> Cell.possible c <> [] ->
  exists t e',
    t ∈ Cell.possible c /\ write_entropy (entropy s) x y 0%nat = Ok e' /\
    collapseCell floor_scaled s x y =
    Ok (true,
        mkWfc (tiles s) (constraints s) (cols s) (rows s) (seed s)
          (put_cell (grid s) x y (Cell.mk [t] true t)) e'
          (collapsed s) (conflicts s)).
Proof.
  intros [Hshape Hent] Hseed Hc Hcol Hne. unfold collapseCell.
  rewrite Hc. simpl. rewrite Hcol. simpl.
  rewrite bool_decide_eq_false_2 by (by destruct (Cell.possible c)).
  rewrite getStepCount_spec by done. simpl.
  pose proof (get_shape _ _ _ _ _ _ Hshape Hc) as [Hx Hy].
  destruct (Hent y Hy) as [row Hrow].
  destruct (write_entropy (entropy s) x y 0%nat) as [e'|] eqn:He';
    [|by unfold write_entropy in He'; rewrite Hrow in He'].
  destruct (lookupZ_in_range (Cell.possible c)
    (random_index floor_scaled
       (collapse_key (seed s) x y (length (collapsed_cells s)))
       (length (Cell.possible c)))) as (t & Ht & Hin).
  { apply (random_index_range floor_scaled floor_scaled_range).
    - unfold collapse_key. lia.
    - destruct (Cell.possible c); [done | simpl; lia]. }
  rewrite Ht. simpl. by exists t, e'.
Qed.

Lemma run_inv_collapse s x y c t e' :
  run_inv s -> get_cell (grid s) x y = Ok c ->
  Cell.collapsed c = false -> t ∈ Cell.possible c ->
  write_entropy (entropy s) x y 0%nat = Ok e' ->
  run_inv (mkWfc (tiles s) (constraints s) (cols s) (rows s) (seed s)
             (put_cell (grid s) x y (Cell.mk [t] true t)) e'
             (collapsed s) (conflicts s)).
Proof.
  intros [Hwf Hts Hdom [Hnd Hks] Hmir] Hc Hcol Ht He'.
  pose proof Hc as (Hx & Hy & _)%get_cell_Ok.
  split; simpl; try done.
  - apply (wf_collapse s x y c t e' Hwf Hc Hcol Ht).
    by eapply write_entropy_rows.
  - intros x' y' c'. destruct (decide ((x', y') = (x, y))) as [[= -> ->]|Hne].
    + rewrite (get_put_eq _ _ _ _ _ Hc). by intros [= <-].
    + rewrite get_put_ne by done. apply Hdom.
  - split; [done|]. intros k Hk. destruct (Hks k Hk) as [ck Hck].
    destruct (decide ((k.1, k.2) = (x, y))) as [[= -> ->]|Hne].
    + rewrite (get_put_eq _ _ _ _ _ Hc). eauto.
    + rewrite get_put_ne by done. eauto.
  - intros x' y' c'. rewrite (write_entropy_at _ _ _ _ _ x' y' He').
    destruct (decide ((x', y') = (x, y))) as [Heq|Hne].
    + rewrite bool_decide_eq_true_2 by done. injection Heq as -> ->.
      rewrite (get_put_eq _ _ _ _ _ Hc). by intros [= <-].
    + rewrite bool_decide_eq_false_2 by done. rewrite get_put_ne by done.
      apply Hmir.
Qed.

Lemma run_inv_step fuel s s' :
  run_inv s -> collapseStep floor_scaled fuel s = Ok s' -> run_inv s'.
Proof.
  intros Hinv. pose proof (ri_wf _ Hinv) as Hwf.
  pose proof (wf_allocated _ Hwf) as Hal.
  unfold collapseStep. intros ([[x y]|] & Hlow & H)%bind_Ok.
  - destruct (getLowestEntropy_Some_eligible s x y (proj1 Hal) Hlow)
      as (c & Hc & Hcol & Hpos).
    destruct (collapseCell_exact s x y c Hal (wf_seed _ Hwf) Hc Hcol Hpos)
      as (t & e' & Ht & He' & Hcollapse).
    rewrite Hcollapse in H. simpl in H.
    eapply run_inv_propagate; [|exact H].
    by eapply run_inv_collapse.
  - injection H as <-. by apply run_inv_set_collapsed.
Qed.

Lemma run_inv_steps fuel n s s' :
  run_inv s -> steps floor_scaled fuel n s = Ok s' -> run_inv s'.
Proof.
  revert s. induction n as [|n IH]; intros s Hinv; simpl.
  - by intros [= <-].
  - intros (s1 & Hstep & Hrest)%bind_Ok.
    eapply IH; [|exact Hrest]. by eapply run_inv_step.
Qed.

(** Steps change neither the catalogue, the table, the dimensions nor the
    seed. *)
Lemma collapseStep_static fuel s s' :
  collapseStep floor_scaled fuel s = Ok s' ->
  tiles s' = tiles s /\ constraints s' = constraints s /\
  cols s' = cols s /\ rows s' = rows s /\ seed s' = seed s.
Proof.
  unfold collapseStep. intros ([[x y]|] & _ & H)%bind_Ok.
  - apply bind_Ok in H as ([b s1] & Hcol & Hprop).
    apply propagate_frame_any in Hprop as [Ht Hc Hcols Hrows Hseed _ _ _ _].
    assert (H1 : tiles s1 = tiles s /\ constraints s1 = constraints s /\
                 cols s1 = cols s /\ rows s1 = rows s /\ seed s1 = seed s).
    { unfold collapseCell in Hcol. apply bind_Ok in Hcol as (c & _ & Hcol).
      destruct (_ || _); [by injection Hcol as _ <-|].
      apply bind_Ok in Hcol as (n & _ & Hcol).
      apply bind_Ok in Hcol as (e' & _ & [= _ <-]). done. }
    destruct H1 as (? & ? & ? & ? & ?). split_and!; congruence.
  - by injection H as <-.
Qed.

Lemma steps_static fuel n s s' :
  steps floor_scaled fuel n s = Ok s' ->
  tiles s' = tiles s /\ constraints s' = constraints s /\
  cols s' = cols s /\ rows s' = rows s /\ seed s' = seed s.
Proof.
  revert s. induction n as [|n IH]; intros s; simpl.
  - by intros [= <-].
  - intros (s1 & Hstep & Hrest)%bind_Ok.
    apply collapseStep_static in Hstep as (? & ? & ? & ? & ?).
    apply IH in Hrest as (? & ? & ? & ? & ?). split_and!; congruence.
Qed.


(** The run from a fresh grid returns in a state that satisfies [run_inv]
    and has the catalogue and the dimensions it started with. *)
Lemma run_from_fresh s0 s1 fuel n :
  (forall t, t ∈ tiles s0 -> is_Some (constraints s0 !! to_key t)) ->
  0 <= seed s0 -> NoDup (tiles s0) -> regenerate s0 = Ok s1 ->
  exists sn,
    steps floor_scaled (S (S fuel)) n s1 = Ok sn /\ run_inv sn /\
    tiles sn = tiles s0 /\ cols sn = cols s0 /\ rows sn = rows s0.
Proof.
  intros Htab Hseed Hnd Hreg.
  pose proof (run_inv_regenerate s0 s1 Htab Hseed Hnd Hreg) as Hinv.
  destruct (steps_wf floor_scaled floor_scaled_range fuel n s1 (ri_wf _ Hinv))
    as (sn & Hrun & _).
  exists sn. split; [done|]. split; [by eapply run_inv_steps|].
  apply steps_static in Hrun as (Ht & _ & Hc & Hr & _).
  injection Hreg as <-. by split_and!.
Qed.

(** X5.  From the grid [regenerate] builds for a duplicate-free catalogue,
    after any number of steps: the domain of every uncollapsed cell is a
    duplicate-free part of the catalogue, not empty unless the catalogue is,
    and its value is still [null]; the value of every collapsed cell is a
    tile of the catalogue, never [undefined]. *)
Theorem run_domains s0 s1 fuel n :
  (forall t, t ∈ tiles s0 -> is_Some (constraints s0 !! to_key t)) ->
  0 <= seed s0 -> NoDup (tiles s0) -> regenerate s0 = Ok s1 ->
  exists sn,
    steps floor_scaled (S (S fuel)) n s1 = Ok sn /\
    forall x y c, get_cell (grid sn) x y = Ok c ->
      (Cell.collapsed c = false ->
       NoDup (Cell.possible c) /\ Cell.possible c ⊆ tiles s0 /\
       (tiles s0 <> [] -> Cell.possible c <> []) /\ Cell.value c = JNull) /\
      (Cell.collapsed c = true -> Cell.value c ∈ tiles s0).
Proof.
  intros Htab Hseed Hnd Hreg.
  destruct (run_from_fresh s0 s1 fuel n Htab Hseed Hnd Hreg)
    as (sn & Hrun & Hinv & Ht & _).
  exists sn. split; [done|]. intros x y c Hc.
  pose proof (wf_cells _ (ri_wf _ Hinv) x y c Hc) as Hcell. rewrite Ht in Hcell.
  split; intros Hcol; rewrite Hcol in Hcell.
  - destruct (ri_domains _ Hinv x y c Hc Hcol) as (H1 & H2 & H3).
    rewrite Ht in H2. by split_and!.
  - tauto.
Qed.

(** X6.  After any number of steps from a fresh grid, the conflicts hold
    no coordinate twice, and every coordinate they hold is one of the
    grid. *)
Theorem run_conflicts s0 s1 fuel n :
  (forall t, t ∈ tiles s0 -> is_Some (constraints s0 !! to_key t)) ->
  0 <= seed s0 -> NoDup (tiles s0) -> regenerate s0 = Ok s1 ->
  exists sn,
    steps floor_scaled (S (S fuel)) n s1 = Ok sn /\
    NoDup (conflicts sn) /\
    forall k, k ∈ conflicts sn -> 0 <= k.1 < cols s0 /\ 0 <= k.2 < rows s0.
Proof.
  intros Htab Hseed Hnd Hreg.
  destruct (run_from_fresh s0 s1 fuel n Htab Hseed Hnd Hreg)
    as (sn & Hrun & Hinv & _ & Hc & Hr).
  exists sn. split; [done|]. destruct (ri_conflicts _ Hinv) as [Hnd' Hks].
  split; [done|]. intros k Hk. destruct (Hks k Hk) as [c Hcell].
  rewrite <- Hc, <- Hr.
  eapply get_shape; [apply (wf_allocated _ (ri_wf _ Hinv)) | exact Hcell].
Qed.

(** X7.  After any number of steps from a fresh grid, the entropy array
    agrees with the grid at every coordinate: it holds 0 for a collapsed
    cell and the size of the domain for an uncollapsed cell, a number that
    never exceeds the size of the catalogue. *)
Theorem run_entropy s0 s1 fuel n :
  (forall t, t ∈ tiles s0 -> is_Some (constraints s0 !! to_key t)) ->
  0 <= seed s0 -> NoDup (tiles s0) -> regenerate s0 = Ok s1 ->
  exists sn,
    steps floor_scaled (S (S fuel)) n s1 = Ok sn /\
    forall x y, 0 <= x < cols s0 -> 0 <= y < rows s0 ->
      exists c, get_cell (grid sn) x y = Ok c /\
        entropy_at (entropy sn) x y = Some (entropy_of c) /\
        (entropy_of c <= length (tiles s0))%nat.
Proof.
  intros Htab Hseed Hnd Hreg.
  destruct (run_from_fresh s0 s1 fuel n Htab Hseed Hnd Hreg)
    as (sn & Hrun & Hinv & Ht & Hc & Hr).
  exists sn. split; [done|]. intros x y Hx Hy.
  destruct (shape_get (grid sn) (rows sn) (cols sn) x y) as [c Hcell];
    [apply (wf_allocated _ (ri_wf _ Hinv)) | by rewrite Hc | by rewrite Hr |].
  exists c. split; [done|]. split; [by apply (ri_entropy _ Hinv)|].
  unfold entropy_of. destruct (Cell.collapsed c) eqn:Hcol; [lia|].
  pose proof (wf_cells _ (ri_wf _ Hinv) x y c Hcell) as Hsub.
  rewrite Hcol, Ht in Hsub.
  destruct (ri_domains _ Hinv x y c Hcell Hcol) as (Hnd1 & _).
  by apply submseteq_length, NoDup_submseteq.
Qed.



(** X9.  Reset after a run.  Whatever steps were taken, [regenerate]
    (the [onReset] handler) answers with the same state as it would have
    before them, and so does a change of seed: nothing of the previous
    grid, entropy, conflicts or completion flag survives. *)
Theorem reset_discards_run fuel n s sn sd :
  steps floor_scaled fuel n s = Ok sn ->
  onReset sn = onReset s /\ onSeedChange sn sd = onSeedChange s sd.
Proof.
  intros (Ht & Hc & Hcols & Hrows & Hseed)%steps_static.
  unfold onReset, onSeedChange, regenerate, with_seed. simpl.
  by rewrite Ht, Hc, Hcols, Hrows, Hseed.
Qed.

(** X10.  The origin is not guarded: on a grid of the allocated shape,
    [collapseCell] and [propagate] called with a coordinate off the grid
    throw a [TypeError] instead of returning. *)
Theorem off_grid_throws s x y fuel :
  shape (grid s) (rows s) (cols s) ->
  ~ (0 <= x < cols s /\ 0 <= y < rows s) ->
  collapseCell floor_scaled s x y = Throw TypeError /\
  propagate (S fuel) s x y = Throw TypeError.
Proof.
  intros Hs Hout. pose proof (get_cell_off_grid _ _ _ x y Hs Hout) as Hc.
  unfold collapseCell. simpl. by rewrite Hc.
Qed.

End RunProperties.

(** ** The further properties at concrete inputs *)

Lemma catalog_NoDup : NoDup catalog.
Proof. apply (bool_decide_unpack _). vm_compute. exact I. Qed.

Lemma blank_solver_table t :
  t ∈ tiles blank_solver -> is_Some (constraints blank_solver !! to_key t).
Proof. intros Ht. by apply buildConstraints_total. Qed.

Lemma blank_solver_seed : 0 <= seed blank_solver.
Proof. simpl. lia. Qed.

Lemma run_domains_witness :
  0 <= seed blank_solver /\ NoDup (tiles blank_solver) /\
  exists sn,
    steps floor_exact 2 4 (regenerated blank_solver) = Ok sn /\
    forall x y c, get_cell (grid sn) x y = Ok c ->
      (Cell.collapsed c = false ->
       NoDup (Cell.possible c) /\ Cell.possible c ⊆ tiles blank_solver /\
       (tiles blank_solver <> [] -> Cell.possible c <> []) /\ Cell.value c = JNull) /\
      (Cell.collapsed c = true -> Cell.value c ∈ tiles blank_solver).
Proof.
  split; [apply blank_solver_seed|]. split; [apply catalog_NoDup|].
  apply (run_domains floor_exact floor_exact_range blank_solver
           (regenerated blank_solver) 0 4 blank_solver_table blank_solver_seed
           catalog_NoDup eq_refl).
Defined.

Lemma run_conflicts_witness :
  0 <= seed blank_solver /\ NoDup (tiles blank_solver) /\
  exists sn,
    steps floor_exact 2 4 (regenerated blank_solver) = Ok sn /\
    NoDup (conflicts sn) /\
    forall k, k ∈ conflicts sn ->
      0 <= k.1 < cols blank_solver /\ 0 <= k.2 < rows blank_solver.
Proof.
  split; [apply blank_solver_seed|]. split; [apply catalog_NoDup|].
  apply (run_conflicts floor_exact floor_exact_range blank_solver
           (regenerated blank_solver) 0 4 blank_solver_table blank_solver_seed
           catalog_NoDup eq_refl).
Defined.

Lemma run_entropy_witness :
  0 <= seed blank_solver /\ NoDup (tiles blank_solver) /\
  exists sn,
    steps floor_exact 2 4 (regenerated blank_solver) = Ok sn /\
    forall x y, 0 <= x < cols blank_solver -> 0 <= y < rows blank_solver ->
      exists c, get_cell (grid sn) x y = Ok c /\
        entropy_at (entropy sn) x y = Some (entropy_of c) /\
        (entropy_of c <= length (tiles blank_solver))%nat.
Proof.
  split; [apply blank_solver_seed|]. split; [apply catalog_NoDup|].
  apply (run_entropy floor_exact floor_exact_range blank_solver
           (regenerated blank_solver) 0 4 blank_solver_table blank_solver_seed
           catalog_NoDup eq_refl).
Defined.


Lemma reset_discards_run_witness :
  steps floor_exact 2 3 (regenerated blank_solver) = Ok three_steps /\
  onReset three_steps = onReset (regenerated blank_solver) /\
  onSeedChange three_steps 7 = onSeedChange (regenerated blank_solver) 7.
Proof.
  assert (Hrun : steps floor_exact 2 3 (regenerated blank_solver) = Ok three_steps)
    by (vm_compute; reflexivity).
  split; [exact Hrun|].
  apply (reset_discards_run floor_exact 2 3 (regenerated blank_solver) three_steps 7 Hrun).
Defined.

Lemma off_grid_throws_witness :
  shape (grid squeezed) (rows squeezed) (cols squeezed) /\
  ~ (0 <= 3 < cols squeezed /\ 0 <= 0 < rows squeezed) /\
  collapseCell floor_exact squeezed 3 0 = Throw TypeError /\
  propagate 1 squeezed 3 0 = Throw TypeError.
Proof.
  assert (Hout : ~ (0 <= 3 < cols squeezed /\ 0 <= 0 < rows squeezed)).
  { assert (Hc : cols squeezed = 3) by (vm_compute; reflexivity). rewrite Hc. lia. }
  split; [apply squeezed_shape|]. split; [exact Hout|].
  apply (off_grid_throws floor_exact squeezed 3 0 0 squeezed_shape Hout).
Defined.

(** ** SeededRandom *)

(** The integer function of [SeededRandom_next]: its range, its period and
    its injectivity below the modulus. *)
Lemma SeededRandom_next_facts :
  (forall k, 0 <= k -> 0 <= SeededRandom_next k < 233280) /\
  (forall k j, 0 <= k -> 0 <= j ->
     SeededRandom_next (k + 233280 * j) = SeededRandom_next k) /\
  (forall k k', 0 <= k < 233280 -> 0 <= k' < 233280 ->
     SeededRandom_next k = SeededRandom_next k' -> k = k').
Proof.
  split_and!.
  - apply SeededRandom_next_range.
  - intros k j Hk Hj. unfold SeededRandom_next.
    rewrite !Z.rem_mod_nonneg by nia.
    replace ((k + 233280 * j) * 9301 + 49297)
      with (k * 9301 + 49297 + (9301 * j) * 233280) by lia.
    by rewrite Z.mod_add.
  - intros k k' Hk Hk'. unfold SeededRandom_next.
    rewrite !Z.rem_mod_nonneg by nia. intros Heq.
    assert (Hdiv : (233280 | 9301 * (k - k'))).
    { apply Z.mod_divide; [lia|].
      replace (9301 * (k - k')) with ((k * 9301 + 49297) - (k' * 9301 + 49297)) by lia.
      rewrite Zminus_mod, Heq, Z.sub_diag. reflexivity. }
    apply Z.gauss in Hdiv; [|reflexivity].
    destruct Hdiv as [q Hq]. nia.
Qed.



(** ** A negative seed *)

Section NegativeSeed.

Variable floor_scaled : Z -> Z -> Z.

(** For a negative seed [%] leaves a number that is negative or zero; when
    it is negative [random()] returns a negative number, and its rounded
    product with a positive length is below zero. *)
Hypothesis floor_scaled_negative :
  forall r n, r < 0 -> 0 < n -> floor_scaled r n < 0.


End NegativeSeed.



(** ** getStepCount *)

Lemma collapsed_partition g l :
  (forall p, p ∈ l -> exists c, get_cell g p.1 p.2 = Ok c) ->
  (length (filter (fun p => cell_test Cell.collapsed g p = true) l) +
   length (filter (fun p => cell_test (fun c => negb (Cell.collapsed c)) g p = true) l)
   = length l)%nat.
Proof.
  induction l as [|p l IH]; intros Hl; [done|].
  destruct (Hl p) as [c Hc]; [apply elem_of_cons; auto|].
  assert (IH' := IH (fun q Hq => Hl q (proj2 (elem_of_cons _ _ _) (or_intror Hq)))).
  destruct (Cell.collapsed c) eqn:Hcol.
  - rewrite filter_cons_True by (unfold cell_test; by rewrite Hc).
    rewrite (filter_cons_False _ p) by (unfold cell_test; rewrite Hc, Hcol; done).
    simpl. lia.
  - rewrite filter_cons_False by (unfold cell_test; rewrite Hc, Hcol; done).
    rewrite (filter_cons_True _ p) by (unfold cell_test; by rewrite Hc, Hcol).
    simpl. lia.
Qed.

(** X13.  On a grid of the allocated shape [getStepCount] returns the
    number of collapsed cells; together with the uncollapsed cells they are
    the rows times columns cells of the grid. *)
Theorem getStepCount_counts s :
  shape (grid s) (rows s) (cols s) ->
  getStepCount s = Ok (length (collapsed_cells s)) /\
  (length (collapsed_cells s) + length (uncollapsed_cells s)
   = Z.to_nat (rows s) * Z.to_nat (cols s))%nat.
Proof.
  intros Hs. split; [by apply getStepCount_spec|].
  unfold collapsed_cells, uncollapsed_cells.
  rewrite collapsed_partition by (intros p Hp; by apply scan_cells).
  apply length_scan.
Qed.

Lemma getStepCount_counts_witness :
  shape (grid squeezed) (rows squeezed) (cols squeezed) /\
  getStepCount squeezed = Ok (length (collapsed_cells squeezed)) /\
  (length (collapsed_cells squeezed) + length (uncollapsed_cells squeezed)
   = Z.to_nat (rows squeezed) * Z.to_nat (cols squeezed))%nat.
Proof.
  split; [apply squeezed_shape|].
  apply (getStepCount_counts squeezed squeezed_shape).
Defined.

(** ** Local consistency after propagate *)

(** X14.  In a solver whose table was built from its catalogue of strings,
    after [propagate] from a collapsed cell holding a tile of the catalogue:
    every uncollapsed neighbour within the dimensions either holds the whole
    catalogue, having been reset, or holds only tiles of the catalogue whose
    facing edge agrees with the origin's tile. *)
Theorem propagate_local_consistency fuel s x y c0 s' :
  all_strings (tiles s) -> constraints s = buildConstraints (tiles s) ->
  get_cell (grid s) x y = Ok c0 -> Cell.collapsed c0 = true ->
  Cell.value c0 ∈ tiles s ->
  propagate (S (S fuel)) s x y = Ok s' ->
  forall x' y' dir c',
    neighbor_dir x y x' y' = Some dir -> in_bounds s x' y' ->
    get_cell (grid s') x' y' = Ok c' -> Cell.collapsed c' = false ->
    Cell.possible c' = tiles s \/
    forall u, u ∈ Cell.possible c' ->
      u ∈ tiles s /\ compatible (Cell.value c0) dir u.
Proof.
  intros Hstr Htab Hc0 Hcol0 Hval Hprop x' y' dir c' Hdir Hin Hc' Hcol'.
  pose proof (propagate_frame_any _ _ _ _ _ Hprop) as Hf.
  pose proof (frame_grid _ _ Hf x' y') as Hk. rewrite Hc' in Hk.
  destruct (get_cell (grid s) x' y') as [c|] eqn:Hc; [|done].
  destruct Hk as (Hflag & _).
  pose proof (propagate_grid fuel s x y c0 s' Hc0 Hcol0 Hprop x' y' c Hc) as Hnew.
  rewrite Hdir, bool_decide_eq_true_2 in Hnew by done.
  assert (Hcolc : Cell.collapsed c = false) by congruence.
  assert (c' = propagated_cell s (Cell.value c0) dir c) as -> by congruence.
  unfold propagated_cell. rewrite Hcolc.
  destruct (buildConstraints_spec (tiles s) (Cell.value c0) dir Hstr Hval)
    as (allowed & Hal & Hmem).
  rewrite Htab, Hal. simpl. unfold domain_after.
  case_bool_decide; [by left|]. right.
  intros u [Hu _]%list_elem_of_filter. by apply Hmem.
Qed.

Lemma propagate_local_consistency_witness :
  propagate 2 squeezed 1 2 = Ok squeezed_propagated /\
  get_cell (grid squeezed_propagated) 1 1 = Ok (Cell.mk [JStr " "] false JNull) /\
  (Cell.possible (Cell.mk [JStr " "] false JNull) = tiles squeezed \/
   forall u, u ∈ Cell.possible (Cell.mk [JStr " "] false JNull) ->
     u ∈ tiles squeezed /\ compatible (JStr " ") DTop u).
Proof.
  assert (Hprop : propagate 2 squeezed 1 2 = Ok squeezed_propagated)
    by (vm_compute; reflexivity).
  assert (Hc' : get_cell (grid squeezed_propagated) 1 1 =
                Ok (Cell.mk [JStr " "] false JNull))
    by (vm_compute; reflexivity).
  assert (H0 : get_cell (grid squeezed) 1 2 = Ok (Cell.mk [JStr " "] true (JStr " ")))
    by (vm_compute; reflexivity).
  assert (Hts : tiles squeezed = catalog) by (vm_compute; reflexivity).
  assert (Htab : constraints squeezed = buildConstraints (tiles squeezed))
    by (vm_compute; reflexivity).
  assert (Hstr : all_strings (tiles squeezed))
    by (rewrite Hts; apply catalog_strings).
  assert (Hval : Cell.value (Cell.mk [JStr " "] true (JStr " ")) ∈ tiles squeezed).
  { rewrite Hts. apply (bool_decide_unpack _). vm_compute. exact I. }
  assert (Hin : in_bounds squeezed 1 1).
  { unfold in_bounds.
    assert (Hc : cols squeezed = 3) by (vm_compute; reflexivity).
    assert (Hr : rows squeezed = 3) by (vm_compute; reflexivity).
    rewrite Hc, Hr. lia. }
  split; [exact Hprop|]. split; [exact Hc'|].
  apply (propagate_local_consistency 0 squeezed 1 2
           (Cell.mk [JStr " "] true (JStr " ")) squeezed_propagated
           Hstr Htab H0 eq_refl Hval Hprop 1 1 DTop
           (Cell.mk [JStr " "] false JNull) eq_refl Hin Hc' eq_refl).
Defined.

(** ** The run depends on the seed modulo 233280 *)

Lemma foldlM_commute {A B} (g : A -> A) (f : A -> B -> result A) l a :
  (forall a b, f (g a) b = (a' ← f a b; Ok (g a'))) ->
  foldlM f (g a) l = (a' ← foldlM f a l; Ok (g a')).
Proof.
  intros Hf. revert a. induction l as [|b l IH]; intros a; simpl; [done|].
  rewrite Hf. destruct (f a b) as [a'|]; simpl; [apply IH | done].
Qed.

Lemma propagate_neighbor_with_seed tile sd (a : wfc * list (Z * Z)) nb :
  propagate_neighbor tile (with_seed a.1 sd, a.2) nb =
  (a' ← propagate_neighbor tile a nb; Ok (with_seed a'.1 sd, a'.2)).
Proof.
  destruct a as [s ch], nb as [[nx ny] dir]. unfold propagate_neighbor. simpl.
  destruct (bool_decide _); [done|].
  destruct (get_cell (grid s) nx ny) as [nCell|]; simpl; [|done].
  destruct (Cell.collapsed nCell); [done|].
  destruct (allowed_of (constraints s) tile dir) as [allowed|]; [|done].
  destruct (bool_decide (_ < _)%nat); simpl.
  - destruct (write_entropy (entropy s) nx ny _) as [e|]; simpl; [|done].
    destruct (bool_decide (_ = 0%nat)); simpl; [|done].
    by destruct (write_entropy e nx ny _).
  - destruct (bool_decide (_ = 0%nat)); simpl; [|done].
    by destruct (write_entropy (entropy s) nx ny _).
Qed.

Lemma propagate_with_seed fuel s sd x y :
  propagate fuel (with_seed s sd) x y =
  (s' ← propagate fuel s x y; Ok (with_seed s' sd)).
Proof.
  revert s x y. induction fuel as [|fuel IH]; intros s x y; simpl; [done|].
  destruct (get_cell (grid s) x y) as [cell|]; simpl; [|done].
  destruct (negb (Cell.collapsed cell)); simpl; [done|].
  unfold propagate_pass.
  pose proof (foldlM_commute (fun a => (with_seed a.1 sd, a.2))
                (propagate_neighbor (Cell.value cell)) (neighbors x y) (s, [])
                (fun a b => propagate_neighbor_with_seed (Cell.value cell) sd a b))
    as Hpass.
  cbn [fst snd] in Hpass. rewrite Hpass. clear Hpass.
  destruct (foldlM _ (s, []) (neighbors x y)) as [[s1 ch]|]; simpl; [|done].
  apply (foldlM_commute (fun s => with_seed s sd)). intros a b. apply IH.
Qed.

Section SeedPeriod.

Variable floor_scaled : Z -> Z -> Z.

Lemma random_index_period k j n :
  0 <= k -> 0 <= j ->
  random_index floor_scaled (k + 233280 * j) n = random_index floor_scaled k n.
Proof.
  intros Hk Hj. unfold random_index.
  by rewrite (proj1 (proj2 SeededRandom_next_facts) k j Hk Hj).
Qed.

Lemma getLowestEntropy_period s j :
  0 <= seed s -> 0 <= j ->
  getLowestEntropy floor_scaled (with_seed s (seed s + 233280 * j)) =
  getLowestEntropy floor_scaled s.
Proof.
  intros Hseed Hj. unfold getLowestEntropy. simpl.
  destruct (foldlM _ _ (scan (rows s) (cols s))) as [[m cands]|]; simpl; [|done].
  destruct (bool_decide _); [done|].
  change (getStepCount (with_seed s (seed s + 233280 * j))) with (getStepCount s).
  destruct (getStepCount s) as [n|]; simpl; [|done].
  unfold selector_key.
  replace (seed s + 233280 * j + Z.of_nat n)
    with (seed s + Z.of_nat n + 233280 * j) by lia.
  rewrite random_index_period by lia. done.
Qed.

Lemma collapseCell_period s j x y :
  0 <= seed s -> 0 <= j ->
  collapseCell floor_scaled (with_seed s (seed s + 233280 * j)) x y =
  (r ← collapseCell floor_scaled s x y;
   Ok (r.1, with_seed r.2 (seed s + 233280 * j))).
Proof.
  intros Hseed Hj. unfold collapseCell. simpl.
  destruct (get_cell (grid s) x y) as [cell|] eqn:Hc; simpl; [|done].
  apply get_cell_Ok in Hc as (Hx & Hy & _).
  destruct (_ || _); [done|].
  change (getStepCount (with_seed s (seed s + 233280 * j))) with (getStepCount s).
  destruct (getStepCount s) as [n|]; simpl; [|done].
  unfold collapse_key.
  replace (seed s + 233280 * j + x * 1000 + y * 100 + Z.of_nat n)
    with (seed s + x * 1000 + y * 100 + Z.of_nat n + 233280 * j) by lia.
  rewrite random_index_period by lia.
  by destruct (write_entropy (entropy s) x y 0%nat).
Qed.

Lemma collapseStep_period fuel s j :
  0 <= seed s -> 0 <= j ->
  collapseStep floor_scaled fuel (with_seed s (seed s + 233280 * j)) =
  (s' ← collapseStep floor_scaled fuel s; Ok (with_seed s' (seed s + 233280 * j))).
Proof.
  intros Hseed Hj. unfold collapseStep.
  rewrite getLowestEntropy_period by done.
  destruct (getLowestEntropy floor_scaled s) as [[[x y]|]|]; simpl; [|done..].
  rewrite collapseCell_period by done.
  destruct (collapseCell floor_scaled s x y) as [[b s1]|]; simpl; [|done].
  apply propagate_with_seed.
Qed.

(** X15.  A run depends on the seed only modulo 233280, as long as the
    generators compute without rounding: for a seed that is not negative,
    raised by a multiple of 233280 such that every key of a run on the grid
    stays exact, the steps taken with the raised seed return exactly when the
    steps with the seed itself do, and in the same state but for the seed. *)
Theorem seed_period fuel n s j :
  0 <= seed s -> 0 <= j ->
  exact_key (max_key (seed s + 233280 * j) (rows s) (cols s)) ->
  steps floor_scaled fuel n (with_seed s (seed s + 233280 * j)) =
  (s' ← steps floor_scaled fuel n s; Ok (with_seed s' (seed s + 233280 * j))).
Proof.
  intros Hseed Hj _. revert s Hseed. induction n as [|n IH]; intros s Hseed; [done|].
  change (steps floor_scaled fuel (S n) ?a) with
    (s1 ← collapseStep floor_scaled fuel a; steps floor_scaled fuel n s1).
  rewrite collapseStep_period by done.
  destruct (collapseStep floor_scaled fuel s) as [s1|] eqn:Hstep; simpl; [|done].
  apply collapseStep_static in Hstep as (_ & _ & _ & _ & Hs1).
  rewrite <- Hs1. apply IH. by rewrite Hs1.
Qed.

End SeedPeriod.

Lemma seed_period_witness :
  0 <= seed (regenerated blank_solver) /\
  exact_key (max_key (seed (regenerated blank_solver) + 233280 * 2)
               (rows (regenerated blank_solver)) (cols (regenerated blank_solver))) /\
  steps floor_exact 2 3
    (with_seed (regenerated blank_solver) (seed (regenerated blank_solver) + 233280 * 2)) =
  (s' ← steps floor_exact 2 3 (regenerated blank_solver);
   Ok (with_seed s' (seed (regenerated blank_solver) + 233280 * 2))).
Proof.
  assert (Hseed : 0 <= seed (regenerated blank_solver)) by (simpl; lia).
  assert (Hkey : exact_key (max_key (seed (regenerated blank_solver) + 233280 * 2)
                   (rows (regenerated blank_solver)) (cols (regenerated blank_solver))))
    by (split; vm_compute; discriminate).
  split; [exact Hseed|]. split; [exact Hkey|].
  apply (seed_period floor_exact 2 3 (regenerated blank_solver) 2 Hseed); [lia | exact Hkey].
Defined.

(** ** The conflict keys *)

Lemma pretty_N_go_comma_free x s :
  comma_free s = true -> comma_free (pretty_N_go x s) = true.
Proof.
  revert s. induction (N.lt_wf_0 x) as [x _ IH]; intros s Hs.
  destruct (decide (0 < x)%N) as [Hpos|Hzero].
  - rewrite pretty_N_go_step by done. apply IH; [by apply N.div_lt|].
    simpl. rewrite Hs, andb_true_r.
    unfold pretty_N_char. by repeat case_match.
  - assert (x = 0%N) as -> by lia. by rewrite pretty_N_go_0.
Qed.

Lemma pretty_Z_comma_free (x : Z) : comma_free (pretty x) = true.
Proof.
  assert (HN : forall n : N, comma_free (pretty n) = true).
  { intros n. unfold pretty, pretty_N. case_decide; [done|].
    by apply pretty_N_go_comma_free. }
  destruct x as [|p|p]; [done | apply HN |].
  change (pretty (Z.neg p)) with ("-" +:+ pretty (N.pos p)).
  simpl. apply HN.
Qed.

Lemma comma_split_inj a a' b b' :
  comma_free a = true -> comma_free a' = true ->
  a +:+ "," +:+ b = a' +:+ "," +:+ b' -> a = a' /\ b = b'.
Proof.
  assert (Hnil : forall r, "" +:+ r = r) by done.
  assert (Hcons : forall c a r, String c a +:+ r = String c (a +:+ r)) by done.
  revert a'. induction a as [|c a IH]; intros [|c' a']; simpl;
    repeat (rewrite Hnil || rewrite Hcons).
  - intros _ _ [= ->]. done.
  - intros _ [Hc' _]%andb_prop [= <- _]. done.
  - intros [Hc _]%andb_prop _ [= -> _]. done.
  - intros [_ Ha]%andb_prop [_ Ha']%andb_prop [= -> Heq].
    destruct (IH a' Ha Ha' Heq) as [-> ->]. done.
Qed.

(** X16.  Two coordinates have the same conflict key only when they are
    the same coordinate, so looking a key up in the conflicts never finds the
    entry of another cell. *)
Theorem conflictKey_inj x y x' y' :
  - 10 ^ 21 < x < 10 ^ 21 -> - 10 ^ 21 < y < 10 ^ 21 ->
  - 10 ^ 21 < x' < 10 ^ 21 -> - 10 ^ 21 < y' < 10 ^ 21 ->
  conflictKey x y = conflictKey x' y' -> x = x' /\ y = y'.
Proof.
  intros _ _ _ _ Heq. unfold conflictKey in Heq.
  apply comma_split_inj in Heq as [Hx Hy]; [|apply pretty_Z_comma_free..].
  split; by apply (inj pretty).
Qed.

Lemma conflictKey_inj_witness :
  conflictKey 12 3 = "12,3"%string /\
  (conflictKey 12 3 = conflictKey 12 3 -> 12 = 12 /\ 3 = 3) /\
  conflictKey 1 23 <> conflictKey 12 3.
Proof.
  split; [reflexivity|]. split.
  - apply (conflictKey_inj 12 3 12 3); lia.
  - intros Heq. apply (conflictKey_inj 1 23 12 3) in Heq; lia.
Defined.

(** ** The demo as constructed *)

Section Demo.

Variable floor_scaled : Z -> Z -> Z.
Hypothesis floor_scaled_range :
  forall r n, 0 <= r < 233280 -> 0 < n -> 0 <= floor_scaled r n < n.


End Demo.

